(** * SubQuery node-core: entity store cache, metadata cache, serial block
      dispatcher and schema comparison

    A shallow embedding of
    - [packages/node-core/src/indexer/storeCache/cacheModel.ts]
      ([CachedModel]),
    - the [CacheMetadataModel] class,
    - [packages/node-core/src/indexer/blockDispatcher/block-dispatcher.ts]
      ([BlockDispatcher]),
    - the schema migration service ([extractTypeDetails], [compareSchema]),
    followed by the properties established about them.

    JavaScript objects used as dictionaries are finite maps ([gmap string]);
    keys are taken not to coincide with the property names every object
    inherits ([constructor], [toString], ...), for which a plain property
    read would not answer [undefined]. Heights and counters are integers
    ([Z]). A thrown exception is an explicit outcome that still carries the
    state reached when it was thrown, because the mutations performed
    before the [throw] persist. Asynchronous methods are embedded by what
    they do between two [await]s; the database they read is an argument. *)

From stdpp Require Import gmap strings list fin_maps pretty.
From Stdlib Require Import ZArith Lia.

Open Scope Z_scope.

(** ** GraphQL schema comparison *)

Module SchemaMigration.

(** [TypeNode] of the graphql AST: [NamedTypeNode | ListTypeNode |
    NonNullTypeNode]. *)
Inductive TypeNode : Type :=
| NamedType (name : string)
| ListType (type : TypeNode)
| NonNullType (type : TypeNode).

(** The [kind] discriminant carried by every AST node. *)
Definition node_kind (t : TypeNode) : string :=
  match t with
  | NamedType _ => "NamedType"
  | ListType _ => "ListType"
  | NonNullType _ => "NonNullType"
  end.

Record TypeDetails : Type := mkTypeDetails { type : string; kind : string }.

(** The [while (kind === 'NonNullType' || kind === 'ListType')] loop. *)
Fixpoint unwrapTypeNode (currentTypeNode : TypeNode) : TypeNode :=
  match currentTypeNode with
  | NonNullType t => unwrapTypeNode t
  | ListType t => unwrapTypeNode t
  | NamedType _ => currentTypeNode
  end.

Definition extractTypeDetails (typeNode : TypeNode) : TypeDetails :=
  let currentTypeNode := unwrapTypeNode typeNode in
  let name :=
    match currentTypeNode with
    | NamedType n => n
    | _ => ""
    end in
  {| type := node_kind currentTypeNode; kind := name |}.

(** [FieldDefinitionNode]: only [name.value] and [type] are read. *)
Record FieldDefinitionNode : Type := mkField {
  field_name : string;
  field_type : TypeNode
}.

(** Top-level definitions of a parsed document. Only
    [ObjectTypeDefinition] nodes are inspected; [fields] is the
    [node.fields?.map(...) || []] list. *)
Inductive DefinitionNode : Type :=
| ObjectTypeDefinition (name : string) (fields : list FieldDefinitionNode)
| OtherDefinition (kind : string).

Record FromTo : Type := mkFromTo { from : string; to : string }.

Record FieldChange : Type := mkFieldChange {
  change_type : FromTo;
  change_kind : FromTo
}.

Record EntityChanges : Type := mkEntityChanges {
  addedFields : list string;
  removedFields : list string;
  modifiedFields : gmap string FieldChange
}.

Record SchemaChanges : Type := mkSchemaChanges {
  addedEntities : list string;
  removedEntities : list string;
  modifiedEntities : gmap string EntityChanges
}.

Definition str_neq (a b : string) : bool := negb (String.eqb a b).

(** [fields.some(f => f.name.value === n)] *)
Definition some_named (n : string) (fields : list FieldDefinitionNode) : bool :=
  existsb (fun f => String.eqb (field_name f) n) fields.

(** [fields.find(f => f.name.value === n)] *)
Definition find_named (n : string) (fields : list FieldDefinitionNode)
  : option FieldDefinitionNode :=
  List.find (fun f => String.eqb (field_name f) n) fields.

(** One step of the [newFields.reduce] that builds [modifiedFields]. Both
    sides of the disjunction compare [kind], as in the source. *)
Definition modified_step (oldFields : list FieldDefinitionNode)
    (acc : gmap string FieldChange) (newField : FieldDefinitionNode)
  : gmap string FieldChange :=
  let oldField := find_named (field_name newField) oldFields in
  let newFieldDetails := extractTypeDetails (field_type newField) in
  match oldField with
  | Some oldField =>
      let oldFieldDetails := extractTypeDetails (field_type oldField) in
      if str_neq (kind oldFieldDetails) (kind newFieldDetails)
         || str_neq (kind oldFieldDetails) (kind newFieldDetails)
      then <[field_name newField :=
               {| change_type := {| from := type oldFieldDetails;
                                    to := type newFieldDetails |};
                  change_kind := {| from := kind oldFieldDetails;
                                    to := kind newFieldDetails |} |}]> acc
      else acc
  | None => acc
  end.

Definition compute_modifiedFields (oldFields newFields : list FieldDefinitionNode)
  : gmap string FieldChange :=
  fold_left (modified_step oldFields) newFields ∅.

(** [definitions.find(def => def.kind === 'ObjectTypeDefinition' &&
    def.name.value === typeName)], returning the fields of the match. *)
Fixpoint find_object_type (typeName : string) (defs : list DefinitionNode)
  : option (list FieldDefinitionNode) :=
  match defs with
  | [] => None
  | ObjectTypeDefinition n fs :: rest =>
      if String.eqb n typeName then Some fs else find_object_type typeName rest
  | OtherDefinition _ :: rest => find_object_type typeName rest
  end.

Definition nonempty {A} (l : list A) : bool :=
  match l with [] => false | _ => true end.

(** The [ObjectTypeDefinition] visitor run over the next schema. *)
Definition visit_next (currentDefs : list DefinitionNode)
    (changes : SchemaChanges) (node : DefinitionNode) : SchemaChanges :=
  match node with
  | OtherDefinition _ => changes
  | ObjectTypeDefinition typeName newFields =>
      match find_object_type typeName currentDefs with
      | None =>
          {| addedEntities := addedEntities changes ++ [typeName];
             removedEntities := removedEntities changes;
             modifiedEntities := modifiedEntities changes |}
      | Some oldFields =>
          let added :=
            List.filter (fun f => negb (some_named (field_name f) oldFields)) newFields in
          let removed :=
            List.filter (fun f => negb (some_named (field_name f) newFields)) oldFields in
          let modified := compute_modifiedFields oldFields newFields in
          if nonempty added || nonempty removed || bool_decide (0 < size modified)%nat
          then
            {| addedEntities := addedEntities changes;
               removedEntities := removedEntities changes;
               modifiedEntities :=
                 <[typeName := {| addedFields := map field_name added;
                                  removedFields := map field_name removed;
                                  modifiedFields := modified |}]>
                   (modifiedEntities changes) |}
          else changes
      end
  end.

(** The [ObjectTypeDefinition] visitor run over the current schema. *)
Definition visit_current (nextDefs : list DefinitionNode)
    (changes : SchemaChanges) (node : DefinitionNode) : SchemaChanges :=
  match node with
  | OtherDefinition _ => changes
  | ObjectTypeDefinition typeName _ =>
      match find_object_type typeName nextDefs with
      | Some _ => changes
      | None =>
          {| addedEntities := addedEntities changes;
             removedEntities := removedEntities changes ++ [typeName];
             modifiedEntities := modifiedEntities changes |}
      end
  end.

(** [compareSchema], on the two parsed documents
    ([parse(printSchema(schema)).definitions]). *)
Definition compareSchema (currentSchemaAST nextSchemaAST : list DefinitionNode)
  : SchemaChanges :=
  let changes :=
    {| addedEntities := []; removedEntities := []; modifiedEntities := ∅ |} in
  let changes := fold_left (visit_next currentSchemaAST) nextSchemaAST changes in
  fold_left (visit_current nextSchemaAST) currentSchemaAST changes.

(** Names of the object types a document defines, in order. *)
Fixpoint object_type_names (defs : list DefinitionNode) : list string :=
  match defs with
  | [] => []
  | ObjectTypeDefinition n _ :: rest => n :: object_type_names rest
  | OtherDefinition _ :: rest => object_type_names rest
  end.

End SchemaMigration.

(** ** Values, entities and outcomes shared by the cache models *)

(** Scalar field values of an entity payload. *)
Inductive FieldValue : Type :=
| VStr (s : string)
| VNum (n : Z)
| VBool (b : bool).

#[global] Instance FieldValue_eq_dec : EqDecision FieldValue.
Proof. solve_decision. Defined.

(** [value.toString()] *)
Definition toString (v : FieldValue) : string :=
  match v with
  | VStr s => s
  | VNum n => pretty n
  | VBool true => "true"
  | VBool false => "false"
  end.

(** An entity record [T extends {id: string}]: the required [id] and the
    remaining own properties. *)
Record Entity : Type := mkEntity {
  id : string;
  attrs : gmap string FieldValue
}.

#[global] Instance Entity_eq_dec : EqDecision Entity.
Proof. solve_decision. Defined.

(** [entity[field]]; [None] is [undefined]. *)
Definition entity_field (e : Entity) (field : string) : option FieldValue :=
  if String.eqb field "id" then Some (VStr (id e)) else attrs e !! field.

(** The [value] argument of the by-field readers: [T[keyof T] | T[keyof T][]]. *)
Inductive Query : Type :=
| QOne (v : FieldValue)
| QMany (vs : list FieldValue).

(** [(Array.isArray(value) && includes(value, x)) || isEqual(x, value)] for
    a property value [x] that has already been read. *)
Definition matches_value (x : option FieldValue) (value : option Query) : bool :=
  match value with
  | Some (QMany vs) =>
      match x with
      | Some v => bool_decide (v ∈ vs)
      | None => false
      end
  | Some (QOne v) => bool_decide (x = Some v)
  | None => bool_decide (x = None)
  end.

Inductive JsError : Type :=
| TypeError
| Error (message : string).

(** Result of running a method on a state of type [S]: it returns a value
    or throws, and in both cases leaves a state behind; or it enters a loop
    it does not leave, [Hangs s] giving the state in which it entered it. *)
Inductive Outcome (S A : Type) : Type :=
| Returned (s : S) (a : A)
| Thrown (s : S) (e : JsError)
| Hangs (s : S).

Arguments Returned {S A} s a.
Arguments Thrown {S A} s e.
Arguments Hangs {S A} s.

Definition final_state {S A} (o : Outcome S A) : S :=
  match o with
  | Returned s _ => s
  | Thrown s _ => s
  | Hangs s => s
  end.

Definition is_thrown {S A} (o : Outcome S A) : bool :=
  match o with
  | Returned _ _ => false
  | Thrown _ _ => true
  | Hangs _ => false
  end.

(** ** Set-version model *)

Module SetValueModel.

(** One version: [(data, startHeight, endHeight)], [endHeight = None]
    meaning the version is still open. *)
Record SetValue : Type := mkSetValue {
  data : Entity;
  startHeight : Z;
  endHeight : option Z
}.

(** The per-id history, oldest version first. [new SetValueModel()] is the
    empty history. *)
Definition t : Type := list SetValue.

Definition empty : t := [].

Definition getLatest (m : t) : option SetValue := last m.

Definition getFirst (m : t) : option SetValue := head m.

Definition getValues (m : t) : list SetValue := m.

Definition close_at (h : Z) (v : SetValue) : SetValue :=
  match endHeight v with
  | None => {| data := data v; startHeight := startHeight v; endHeight := Some h |}
  | Some _ => v
  end.

Definition is_open (v : SetValue) : bool :=
  match endHeight v with None => true | Some _ => false end.

(** Modelled from the spec: [SetValueModel.set] is declared in
    [storeCache/types], which is not among the sources. [set(d, h)] closes
    the open version at [h] and appends [(d, h, open)]; with [h] equal to
    the open version's [startHeight] it replaces that version in place;
    [h] below the last [startHeight] is an error ([None]). *)
Definition set (d : Entity) (h : Z) (m : t) : option t :=
  match rev m with
  | [] => Some [ {| data := d; startHeight := h; endHeight := None |} ]
  | lastv :: rinit =>
      if h <? startHeight lastv then None
      else if (h =? startHeight lastv) && is_open lastv
      then Some (rev rinit ++
                 [ {| data := d; startHeight := h; endHeight := endHeight lastv |} ])
      else Some (rev rinit ++
                 [ close_at h lastv;
                   {| data := d; startHeight := h; endHeight := None |} ])
  end.

(** Modelled from the spec: [markAsRemoved(h)] closes the open version at
    [h] without opening a new one. *)
Definition markAsRemoved (h : Z) (m : t) : t :=
  match rev m with
  | [] => m
  | lastv :: rinit => rev rinit ++ [ close_at h lastv ]
  end.

(** Modelled from the spec: [isMatchData(field, value)] is true iff the
    latest version's field equals [value], and matches anything when the
    field is unset. An array [value] is compared as the cached model
    compares it against read-cache entries. *)
Definition isMatchData (field : option string) (value : option Query) (m : t) : bool :=
  match field with
  | None => true
  | Some f =>
      match getLatest m with
      | Some v => matches_value (entity_field (data v) f) value
      | None => false
      end
  end.

End SetValueModel.

(** ** Bounded recency map *)

Module GetData.

(** Modelled from the spec: [GetData] is declared in [storeCache/types],
    which is not among the sources. A capacity-bounded map [id -> E | NULL]
    with recency update on access; the least recently used entry is
    evicted on overflow. Entries are kept most recently used first.
    [None] as a stored value is the negative-cache marker. An entry also
    has a time to live: once its age reaches the TTL the cache no longer
    shows it. A state lists the entries that are alive; the methods below
    let no time pass, and [expire] is what the passing of time does
    between two calls. *)
Record t : Type := mk {
  entries : list (string * option Entity)
}.

Definition empty : t := {| entries := [] |}.

Definition is_key (k : string) (kv : string * option Entity) : bool :=
  String.eqb (fst kv) k.

Definition without (k : string) (l : list (string * option Entity))
  : list (string * option Entity) :=
  List.filter (fun kv => negb (is_key k kv)) l.

Definition find_entry (k : string) (c : t) : option (option Entity) :=
  snd <$> List.find (is_key k) (entries c).

Definition has (k : string) (c : t) : bool :=
  match find_entry k c with Some _ => true | None => false end.

(** [get(k)]: the stored value ([undefined] for a miss and for the
    marker alike), and the cache with [k] moved to the front. *)
Definition get (k : string) (c : t) : option Entity * t :=
  match find_entry k c with
  | Some v => (v, {| entries := (k, v) :: without k (entries c) |})
  | None => (None, c)
  end.

(** [set(k, v)] in a cache constructed with the option [max]. *)
Definition set (max : nat) (k : string) (v : option Entity) (c : t) : t :=
  {| entries := take max ((k, v) :: without k (entries c)) |}.

Definition delete (k : string) (c : t) : t :=
  {| entries := without k (entries c) |}.

Definition keys (c : t) : list string := map fst (entries c).

(** The entries under the ids [expired] have reached their time to live. *)
Definition expire (expired : list string) (c : t) : t :=
  {| entries := List.filter (fun kv => negb (bool_decide (fst kv ∈ expired))) (entries c) |}.

End GetData.

(** ** Plain objects used as dictionaries *)

Module JsObject.

(** A plain object [{}] keyed by strings: its own properties, in the
    order in which they were created. *)
Record t (V : Type) : Type := mk { props : list (string * V) }.

Arguments mk {V} props.
Arguments props {V} _.

(** The names every plain object inherits from [Object.prototype]. Read
    through [o[k]], each gives a function (["__proto__"] gives the
    prototype itself): a value that is truthy and is not [undefined]. *)
Definition object_prototype_names : list string :=
  [ "constructor"; "__defineGetter__"; "__defineSetter__"; "hasOwnProperty";
    "__lookupGetter__"; "__lookupSetter__"; "isPrototypeOf";
    "propertyIsEnumerable"; "toString"; "valueOf"; "__proto__";
    "toLocaleString" ].

Definition inherited (k : string) : bool :=
  existsb (String.eqb k) object_prototype_names.

Definition has_key {V} (k : string) (kv : string * V) : bool :=
  String.eqb (fst kv) k.

(** The own property named [k], if there is one. *)
Definition own {V} (k : string) (o : t V) : option V :=
  snd <$> List.find (has_key k) (props o).

#[global] Instance t_lookup {V} : Lookup string V (t V) := own.

#[global] Instance t_empty {V} : Empty (t V) := mk [].

(** What [o[k]] evaluates to. *)
Inductive Property (V : Type) : Type :=
| Own (v : V)
| Inherited
| Absent.

Arguments Own {V} v.
Arguments Inherited {V}.
Arguments Absent {V}.

(** [o[k]]: the own property, else what the prototype has under that
    name, else [undefined]. *)
Definition read {V} (k : string) (o : t V) : Property V :=
  match o !! k with
  | Some v => Own v
  | None => if inherited k then Inherited else Absent
  end.

Definition replace_value {V} (k : string) (v : V) (kv : string * V) : string * V :=
  if has_key k kv then (fst kv, v) else kv.

(** [o[k] = v] for a name that [o[k]] reads as own or as [undefined]: an
    own property keeps its place, a new one comes last. *)
Definition assign {V} (k : string) (v : V) (o : t V) : t V :=
  match o !! k with
  | Some _ => mk (map (replace_value k v) (props o))
  | None => mk (props o ++ [(k, v)])
  end.

Definition digit (a : Ascii.ascii) : option N :=
  let n := Ascii.N_of_ascii a in
  if (48 <=? n)%N && (n <=? 57)%N then Some (n - 48)%N else None.

Fixpoint digits (k : string) (acc : N) : option N :=
  match k with
  | EmptyString => Some acc
  | String a rest =>
      match digit a with
      | Some d => digits rest (10 * acc + d)%N
      | None => None
      end
  end.

(** The array index a property name stands for: a decimal numeral without
    sign or leading zero, below [2^32 - 1]. *)
Definition array_index (k : string) : option N :=
  match k with
  | EmptyString => None
  | String a rest =>
      match digits k 0 with
      | Some n =>
          if (negb (Ascii.N_of_ascii a =? 48)%N || String.eqb rest EmptyString)
             && (n <? 4294967295)%N
          then Some n else None
      | None => None
      end
  end.

(** The first property under each name. *)
Fixpoint first_props {V} (l : list (string * V)) : list (string * V) :=
  match l with
  | [] => []
  | kv :: rest => kv :: List.filter (fun x => negb (has_key (fst kv) x)) (first_props rest)
  end.

Fixpoint insert_by_index {V} (n : N) (kv : string * V) (l : list (N * (string * V)))
  : list (N * (string * V)) :=
  match l with
  | [] => [(n, kv)]
  | (m, x) :: rest =>
      if (n <=? m)%N then (n, kv) :: l else (m, x) :: insert_by_index n kv rest
  end.

Definition sort_by_index {V} (l : list (N * (string * V))) : list (N * (string * V)) :=
  foldr (fun '(n, kv) sorted => insert_by_index n kv sorted) [] l.

Definition with_index {V} (kv : string * V) : option (N * (string * V)) :=
  (fun n => (n, kv)) <$> array_index (fst kv).

Definition is_named {V} (kv : string * V) : bool :=
  match array_index (fst kv) with
  | Some _ => false
  | None => true
  end.

(** [Object.entries(o)]: the properties whose names are array indices, in
    ascending order of the index, then the others in the order of their
    creation. *)
Definition entries {V} (o : t V) : list (string * V) :=
  let own_props := first_props (props o) in
  map snd (sort_by_index (omap with_index own_props)) ++ List.filter is_named own_props.

(** [Object.keys(o)] *)
Definition keys {V} (o : t V) : list string := map fst (entries o).

End JsObject.

(** ** Cached entity model ([cacheModel.ts]) *)

Module CachedModel.

Record RemoveValue : Type := mkRemoveValue { removedAtBlock : Z }.

(** The entity table behind [this.model]: its rows, in the order the
    database returns them. *)
Definition Table : Type := list Entity.

(** [getCacheOptions.max]: the read cache is built with [max: 500]. *)
Definition getCacheOptions_max : nat := 500.

(** [setCache] and [removeCache] are plain objects ([{}]) keyed by id. *)
Record t : Type := mk {
  getCache : GetData.t;
  setCache : JsObject.t SetValueModel.t;
  removeCache : JsObject.t RemoveValue;
  flushableRecordCounter : Z;
  historical : bool
}.

(** [new CachedModel(model, historical)] *)
Definition create (historical : bool) : t :=
  {| getCache := GetData.empty;
     setCache := ∅;
     removeCache := ∅;
     flushableRecordCounter := 0;
     historical := historical |}.

Definition with_getCache (c : GetData.t) (s : t) : t :=
  {| getCache := c; setCache := setCache s; removeCache := removeCache s;
     flushableRecordCounter := flushableRecordCounter s; historical := historical s |}.

(** [model.findOne({where: {id}})?.toJSON()] *)
Definition findOne_by_id (db : Table) (i : string) : option Entity :=
  List.find (fun row => String.eqb (id row) i) db.

(** [model.findOne({where: {[field]: value, id: {[Op.notIn]: ids}}})?.toJSON()] *)
Definition findOne_where (db : Table) (field : string) (value : FieldValue)
    (ids : list string) : option Entity :=
  List.find (fun row => bool_decide (entity_field row field = Some value)
                        && negb (bool_decide (id row ∈ ids))) db.

(** lodash [uniq]: first occurrences, in order. *)
Fixpoint uniq (l : list string) : list string :=
  match l with
  | [] => []
  | x :: rest => x :: List.filter (fun y => negb (String.eqb y x)) (uniq rest)
  end.

Definition allCachedIds (s : t) : list string :=
  uniq (GetData.keys (getCache s) ++ JsObject.keys (setCache s)
        ++ JsObject.keys (removeCache s)).

(** [get(id)]. The result [None] is [undefined]. The test of line 52 is
    on [this.removeCache[id]], which is truthy for an own entry and for a
    name the object inherits alike. A [setCache] model without a version
    makes [getLatest().data] throw, and so does an inherited value, which
    has no [getLatest]. *)
Definition get (db : Table) (i : string) (s : t) : Outcome t (option Entity) :=
  match JsObject.read i (removeCache s) with
  | JsObject.Own _ | JsObject.Inherited => Returned s None
  | JsObject.Absent =>
      if negb (GetData.has i (getCache s)) then
        match JsObject.read i (setCache s) with
        | JsObject.Own m =>
            match SetValueModel.getLatest m with
            | Some v => Returned s (Some (SetValueModel.data v))
            | None => Thrown s TypeError
            end
        | JsObject.Inherited => Thrown s TypeError
        | JsObject.Absent =>
            let record := findOne_by_id db i in
            Returned (with_getCache (GetData.set getCacheOptions_max i record (getCache s)) s) record
        end
      else
        let '(v, c) := GetData.get i (getCache s) in
        Returned (with_getCache c s) v
  end.

(** The [Object.entries(this.setCache).map(...)] pass of [getFromCache]:
    the ids and latest data of the matching models. Reading [.data] of a
    model with no version throws. *)
Fixpoint scan_setCache (field : option string) (value : option Query)
    (models : list (string * SetValueModel.t))
    (unifiedIds : list string) (joinedData : list (option Entity))
  : option (list string * list (option Entity)) :=
  match models with
  | [] => Some (unifiedIds, joinedData)
  | (_, model) :: rest =>
      if SetValueModel.isMatchData field value model then
        match SetValueModel.getLatest model with
        | Some v =>
            let latestData := SetValueModel.data v in
            scan_setCache field value rest
              (unifiedIds ++ [id latestData]) (joinedData ++ [Some latestData])
        | None => None
        end
      else scan_setCache field value rest unifiedIds joinedData
  end.

Definition field_of (e : Entity) (field : option string) : option FieldValue :=
  match field with
  | Some f => entity_field e f
  | None => None
  end.

(** What the callback given to [this.getCache.forEach] does with one
    entry: nothing, or [joinedData.push(this.getCache.get(key))], or it
    throws because it reads a property of a stored marker. *)
Inductive Visit : Type :=
| Skips
| Reads
| Throws.

(** [getValue[field]] gives an inherited function when [field] names a
    property every object inherits and the entity has none of its own
    under that name; such a value equals no field value and is not
    [undefined]. *)
Definition inherited_field (e : Entity) (field : option string) : bool :=
  match field with
  | Some f =>
      negb (String.eqb f "id") && JsObject.inherited f
      && negb (bool_decide (is_Some (attrs e !! f)))
  | None => false
  end.

Definition visit (unifiedIds : list string) (field : option string)
    (value : option Query) (entry : string * option Entity) : Visit :=
  if bool_decide (entry.1 ∈ unifiedIds) then Skips
  else
    match field, value, entry.2 with
    | None, None, _ => Reads
    | _, _, None => Throws
    | _, _, Some e =>
        if inherited_field e field then Skips
        else if matches_value (field_of e field) value then Reads else Skips
    end.

(** Modelled from the spec: [forEach] is a method of [GetData]. It goes
    from the most recently used entry to the least recently used one,
    stepping from the entry it is at to the one that follows it in the
    order as it stands after the callback. [forEach_steps n position] is
    the iteration from the entry at [position], cut after [n] callbacks
    ([None]). The callback's [get] moves the entry it reads to the front,
    so the step after a read leads to the second entry. *)
Fixpoint forEach_steps (n : nat) (unifiedIds : list string)
    (field : option string) (value : option Query)
    (position : nat) (joinedData : list (option Entity)) (c : GetData.t)
  : option (Outcome GetData.t (list (option Entity))) :=
  match n with
  | O => None
  | S n =>
      match GetData.entries c !! position with
      | None => Some (Returned c joinedData)
      | Some entry =>
          match visit unifiedIds field value entry with
          | Skips =>
              forEach_steps n unifiedIds field value (S position) joinedData c
          | Throws => Some (Thrown c TypeError)
          | Reads =>
              let '(v, c') := GetData.get entry.1 c in
              forEach_steps n unifiedIds field value 1%nat (joinedData ++ [v]) c'
          end
      end
  end.

(** How the iteration goes on after a first read. *)
Inductive Ending : Type :=
| Ends
| Fails
| NeverEnds.

(** After a read the entries passed before come up again, then those not
    yet reached. A second read puts its entry in front of the one read
    first; the step then leads back to that one, whose read puts it in
    front again, and so on: the iteration does not end. *)
Fixpoint after_read (unifiedIds : list string) (field : option string)
    (value : option Query) (remaining : list (string * option Entity)) : Ending :=
  match remaining with
  | [] => Ends
  | entry :: rest =>
      match visit unifiedIds field value entry with
      | Skips => after_read unifiedIds field value rest
      | Throws => Fails
      | Reads => NeverEnds
      end
  end.

(** The [this.getCache.forEach(...)] pass of [getFromCache]: [passed] are
    the entries the iteration has left behind, [remaining] the one it is
    at and those after it. It agrees with [forEach_steps]
    ([scan_getCache_iterates]). *)
Fixpoint scan_getCache (unifiedIds : list string)
    (field : option string) (value : option Query)
    (passed remaining : list (string * option Entity))
    (joinedData : list (option Entity)) (c : GetData.t)
  : Outcome GetData.t (list (option Entity)) :=
  match remaining with
  | [] => Returned c joinedData
  | entry :: rest =>
      match visit unifiedIds field value entry with
      | Skips =>
          scan_getCache unifiedIds field value (passed ++ [entry]) rest joinedData c
      | Throws => Thrown c TypeError
      | Reads =>
          let '(v, c') := GetData.get entry.1 c in
          match after_read unifiedIds field value (passed ++ rest) with
          | Ends => Returned c' (joinedData ++ [v])
          | Fails => Thrown c' TypeError
          | NeverEnds => Hangs c'
          end
      end
  end.

(** [getFromCache(field?, value?, findOne?)]; [joinedData] may hold
    [undefined] when everything is asked for and a marker is stored. *)
Definition getFromCache (field : option string) (value : option Query)
    (findOne : bool) (s : t) : Outcome t (list (option Entity)) :=
  match scan_setCache field value (JsObject.entries (setCache s)) [] [] with
  | None => Thrown s TypeError
  | Some (unifiedIds, joinedData) =>
      if findOne && negb (bool_decide (length joinedData = 0%nat)) then
        Returned s joinedData
      else
        match scan_getCache unifiedIds field value
                [] (GetData.entries (getCache s)) joinedData (getCache s) with
        | Returned c joined => Returned (with_getCache c s) joined
        | Thrown c e => Thrown (with_getCache c s) e
        | Hangs c => Hangs (with_getCache c s)
        end
  end.

(** [getOneByField(field, value)]. With no cached match and no row,
    [record] is [undefined] and [record.id] throws. *)
Definition getOneByField (db : Table) (field : string) (value : FieldValue) (s : t)
  : Outcome t (option Entity) :=
  if String.eqb field "id" then get db (toString value) s
  else
    match getFromCache (Some field) (Some (QOne value)) true s with
    | Thrown s' e => Thrown s' e
    | Hangs s' => Hangs s'
    | Returned s' joined =>
        match head joined with
        | Some (Some oneFromCached) => Returned s' (Some oneFromCached)
        | _ =>
            match findOne_where db field value (allCachedIds s') with
            | Some record =>
                Returned (with_getCache
                            (GetData.set getCacheOptions_max (id record) (Some record)
                                         (getCache s')) s')
                         (Some record)
            | None => Thrown s' TypeError
            end
        end
    end.

(** Lines 139 to 141 of [set], on the version model found or created
    under the id; [models] is [setCache] as lines 136 to 138 leave it.
    When the version model refuses the height, the exception leaves the
    method before [getCache] and the counter are touched. *)
Definition set_version (i : string) (data : Entity) (blockHeight : Z)
    (model : SetValueModel.t) (models : JsObject.t SetValueModel.t) (s : t)
  : Outcome t unit :=
  match SetValueModel.set data blockHeight model with
  | None =>
      Thrown {| getCache := getCache s;
                setCache := models;
                removeCache := removeCache s;
                flushableRecordCounter := flushableRecordCounter s;
                historical := historical s |}
             (Error "Can not set record with block height")
  | Some model' =>
      Returned {| getCache := GetData.set getCacheOptions_max i (Some data) (getCache s);
                  setCache := JsObject.assign i model' models;
                  removeCache := removeCache s;
                  flushableRecordCounter := flushableRecordCounter s + 1;
                  historical := historical s |}
               tt
  end.

(** [set(id, data, blockHeight)]. The counter is incremented by the last
    statement, outside the test on [setCache[id]]. For a name the object
    inherits, [setCache[id]] is not [undefined], no model is created, and
    the call of [.set] on the inherited value throws. *)
Definition set (i : string) (data : Entity) (blockHeight : Z) (s : t) : Outcome t unit :=
  match JsObject.read i (setCache s) with
  | JsObject.Own model => set_version i data blockHeight model (setCache s) s
  | JsObject.Inherited => Thrown s TypeError
  | JsObject.Absent =>
      set_version i data blockHeight SetValueModel.empty
        (JsObject.assign i SetValueModel.empty (setCache s)) s
  end.

(** [for (const entity of data) this.set(entity.id, entity, blockHeight)] *)
Fixpoint set_each (data : list Entity) (blockHeight : Z) (s : t) : Outcome t unit :=
  match data with
  | [] => Returned s tt
  | entity :: rest =>
      match set (id entity) entity blockHeight s with
      | Returned s' _ => set_each rest blockHeight s'
      | Thrown s' e => Thrown s' e
      | Hangs s' => Hangs s'
      end
  end.

Definition bulkCreate (data : list Entity) (blockHeight : Z) (s : t) : Outcome t unit :=
  set_each data blockHeight s.

(** [fields] is [None] when the argument is omitted; any array, the empty
    one included, is truthy. *)
Definition bulkUpdate (data : list Entity) (blockHeight : Z)
    (fields : option (list string)) (s : t) : Outcome t unit :=
  match set_each data blockHeight s with
  | Thrown s' e => Thrown s' e
  | Hangs s' => Hangs s'
  | Returned s' _ =>
      match fields with
      | Some _ => Thrown s' (Error "Currently not support update by fields")
      | None => Returned s' tt
      end
  end.

(** [remove(id, blockHeight)]: nothing happens unless [removeCache[id]] is
    [undefined], which it is neither for an id already removed nor for a
    name the object inherits. Past that test the id is no inherited name,
    so [this.setCache[id]] is an own property or [undefined]. *)
Definition remove (i : string) (blockHeight : Z) (s : t) : t :=
  match JsObject.read i (removeCache s) with
  | JsObject.Own _ | JsObject.Inherited => s
  | JsObject.Absent =>
      let '(v, c) := GetData.get i (getCache s) in
      {| getCache := match v with
                     | Some _ => GetData.delete i c
                     | None => c
                     end;
         setCache := match setCache s !! i with
                     | Some m =>
                         JsObject.assign i (SetValueModel.markAsRemoved blockHeight m)
                                         (setCache s)
                     | None => setCache s
                     end;
         removeCache := JsObject.assign i {| removedAtBlock := blockHeight |} (removeCache s);
         flushableRecordCounter := flushableRecordCounter s + 1;
         historical := historical s |}
  end.

(** [!!Object.keys(this.setCache).length] *)
Definition isFlushable (s : t) : bool :=
  negb (bool_decide (length (JsObject.keys (setCache s)) = 0%nat)).

Definition clear (s : t) : t :=
  {| getCache := getCache s; setCache := ∅; removeCache := ∅;
     flushableRecordCounter := 0; historical := historical s |}.

End CachedModel.

(** ** Whole numbers held as JavaScript numbers *)

(** A JavaScript number is a double. Every integer of magnitude up to
    [2^53] is one; beyond that only the multiples of a power of two are.
    [round_to_double x] is the double nearest to the integer [x], a tie
    going to the even significand. Magnitudes of [2^1024] and more, which
    round to [Infinity], are not covered. *)
Definition round_to_double (x : Z) : Z :=
  let magnitude := Z.abs x in
  if magnitude <=? 2 ^ 53 then x
  else
    let e := Z.log2 magnitude - 52 in
    let q := magnitude / 2 ^ e in
    let r := magnitude mod 2 ^ e in
    let half := 2 ^ (e - 1) in
    let q' := if (half <? r) || ((r =? half) && Z.odd q) then q + 1 else q in
    Z.sgn x * (q' * 2 ^ e).

(** [x + y] on two numbers that hold integers. *)
Definition js_add (x y : Z) : Z := round_to_double (x + y).

(** ** Cached metadata model *)

Module CacheMetadataModel.

(** The keys of [incrementKeys]; [setIncrement] accepts no other key. *)
Inductive IncrementKey : Type :=
| processedBlockCount
| schemaMigrationCount.

#[global] Instance IncrementKey_eq_dec : EqDecision IncrementKey.
Proof. solve_decision. Defined.

Definition key_name (k : IncrementKey) : string :=
  match k with
  | processedBlockCount => "processedBlockCount"
  | schemaMigrationCount => "schemaMigrationCount"
  end.

Definition incrementKeys : list IncrementKey :=
  [processedBlockCount; schemaMigrationCount].

Inductive MetadataKey : Type :=
| IncKey (k : IncrementKey)
| OtherKey (name : string).

(** [MetadataKeys[K]]: the two counters are numbers. *)
Definition value_of (k : MetadataKey) : Type :=
  match k with
  | IncKey _ => Z
  | OtherKey _ => FieldValue
  end.

(** [Partial<MetadataKeys>]. The same shape describes the rows of the
    metadata table, one row per key. *)
Record MetadataKeys : Type := mkKeys {
  processedBlockCount_ : option Z;
  schemaMigrationCount_ : option Z;
  others : gmap string FieldValue
}.

Definition no_keys : MetadataKeys :=
  {| processedBlockCount_ := None; schemaMigrationCount_ := None; others := ∅ |}.

Definition counter (k : IncrementKey) (m : MetadataKeys) : option Z :=
  match k with
  | processedBlockCount => processedBlockCount_ m
  | schemaMigrationCount => schemaMigrationCount_ m
  end.

Definition with_counter (k : IncrementKey) (v : option Z) (m : MetadataKeys) : MetadataKeys :=
  match k with
  | processedBlockCount =>
      {| processedBlockCount_ := v;
         schemaMigrationCount_ := schemaMigrationCount_ m; others := others m |}
  | schemaMigrationCount =>
      {| processedBlockCount_ := processedBlockCount_ m;
         schemaMigrationCount_ := v; others := others m |}
  end.

(** [m[key]] and [m[key] = value] *)
Definition read (k : MetadataKey) (m : MetadataKeys) : option (value_of k) :=
  match k with
  | IncKey i => counter i m
  | OtherKey n => others m !! n
  end.

Definition write (k : MetadataKey) : value_of k -> MetadataKeys -> MetadataKeys :=
  match k with
  | IncKey i => fun v m => with_counter i (Some v) m
  | OtherKey n => fun v m =>
      {| processedBlockCount_ := processedBlockCount_ m;
         schemaMigrationCount_ := schemaMigrationCount_ m;
         others := <[n := v]> (others m) |}
  end.

Record t : Type := mk {
  setCache : MetadataKeys;
  getCache : MetadataKeys;
  flushableRecordCounter : Z
}.

Definition create : t :=
  {| setCache := no_keys; getCache := no_keys; flushableRecordCounter := 0 |}.

Definition set (k : MetadataKey) (value : value_of k) (s : t) : t :=
  {| setCache := write k value (setCache s);
     getCache := write k value (getCache s);
     flushableRecordCounter :=
       match read k (setCache s) with
       | None => flushableRecordCounter s + 1
       | Some _ => flushableRecordCounter s
       end |}.

(** [this.setCache[key] = (this.setCache[key] ?? 0) + amount], the sum
    being one of JavaScript numbers. *)
Definition setIncrement (key : IncrementKey) (amount : Z) (s : t) : t :=
  {| setCache :=
       with_counter key (Some (js_add (default 0 (counter key (setCache s))) amount))
                    (setCache s);
     getCache := getCache s;
     flushableRecordCounter := flushableRecordCounter s |}.

(** [UPDATE table SET value = (COALESCE(value->0)::int + amount)::text::jsonb
    WHERE key = 'key'], run by the server against the row as it stands
    when the statement executes; without such a row nothing is updated.
    The sum is that of the integers, which is what the server computes
    for a stored value, an amount and a sum of the SQL type [int]; the
    cast and the addition fail outside that type. *)
Definition incrementJsonbCount (key : IncrementKey) (amount : Z) (db : MetadataKeys)
  : MetadataKeys :=
  match counter key db with
  | Some value => with_counter key (Some (value + amount)) db
  | None => db
  end.

(** [Object.keys(this.setCache)] *)
Definition set_keys (m : MetadataKeys) : list string :=
  match processedBlockCount_ m with
  | Some _ => [key_name processedBlockCount]
  | None => []
  end
  ++ match schemaMigrationCount_ m with
     | Some _ => [key_name schemaMigrationCount]
     | None => []
     end
  ++ (map_to_list (others m)).*1.

Definition isFlushable (s : t) : bool :=
  negb (bool_decide (length (set_keys (setCache s)) = 0%nat)).

Definition clear (s : t) : t :=
  {| setCache := no_keys; getCache := getCache s; flushableRecordCounter := 0 |}.

Definition is_increment_name (n : string) : bool :=
  existsb (fun k => String.eqb (key_name k) n) incrementKeys.

(** [model.bulkCreate(ops, {updateOnDuplicate: ['key', 'value']})] *)
Definition bulkCreate (ops : list (string * FieldValue)) (db : MetadataKeys) : MetadataKeys :=
  {| processedBlockCount_ := processedBlockCount_ db;
     schemaMigrationCount_ := schemaMigrationCount_ db;
     others := fold_left (fun rows op => <[op.1 := op.2]> rows) ops (others db) |}.

(** The increment for one key issued by [flush]:
    [this.setCache[key] && this.incrementJsonbCount(key, this.setCache[key], tx)];
    an absent or zero pending value is falsy and issues nothing. *)
Definition flush_increment (pending : MetadataKeys) (db : MetadataKeys) (key : IncrementKey)
  : MetadataKeys :=
  match counter key pending with
  | Some amount => if amount =? 0 then db else incrementJsonbCount key amount db
  | None => db
  end.

(** [flush(tx)]: the table after the statements have run, and the model
    after [clear()]. [ops] keeps the entries of [setCache] whose key is not
    an increment key, which leaves out the two counters. The upsert and
    the increments touch different rows. *)
Definition flush (db : MetadataKeys) (s : t) : MetadataKeys * t :=
  let ops :=
    List.filter (fun op => negb (is_increment_name op.1))
                (map_to_list (others (setCache s))) in
  let db := bulkCreate ops db in
  let db := fold_left (flush_increment (setCache s)) incrementKeys db in
  (db, clear s).

End CacheMetadataModel.

(** ** Serial block dispatcher ([block-dispatcher.ts]) *)

Module BlockDispatcher.

(** Modelled from the spec: the bounded FIFO [Queue] of [utils] is not
    among the sources. Capacity is fixed at construction; [putMany]
    beyond the free space is an error; [takeMany(n)] returns up to [n]
    items without waiting; [flush()] empties the queue; [peek()] returns
    the head without removing it. *)
Module Queue.
Record t : Type := mk { capacity : nat; items : list Z }.
Definition size (q : t) : nat := length (items q).
Definition freeSpace (q : t) : nat := (capacity q - size q)%nat.
Definition putMany (xs : list Z) (q : t) : option t :=
  if bool_decide (length xs <= freeSpace q)%nat
  then Some {| capacity := capacity q; items := items q ++ xs |}
  else None.
Definition takeMany (n : nat) (q : t) : list Z * t :=
  (take n (items q), {| capacity := capacity q; items := drop n (items q) |}).
Definition peek (q : t) : option Z := head (items q).
Definition flush (q : t) : t := {| capacity := capacity q; items := [] |}.
End Queue.

(** Modelled from the spec: the ordered task runner [AutoQueue] of [utils]
    is not among the sources. Tasks run in submission order, one at a
    time; the backlog is bounded; [flush()] discards the tasks not yet
    started; [abort()] discards them and rejects later submissions. A
    block task is identified by the height of its block. *)
Module AutoQueue.
Record t : Type := mk { capacity : nat; tasks : list Z; aborted : bool }.
Definition size (q : t) : nat := length (tasks q).
Definition freeSpace (q : t) : nat := (capacity q - size q)%nat.
Definition putMany (ts : list Z) (q : t) : option t :=
  if aborted q then None
  else if bool_decide (length ts <= freeSpace q)%nat
  then Some {| capacity := capacity q; tasks := tasks q ++ ts; aborted := false |}
  else None.
Definition flush (q : t) : t :=
  {| capacity := capacity q; tasks := []; aborted := aborted q |}.
Definition abort (q : t) : t :=
  {| capacity := capacity q; tasks := []; aborted := true |}.
End AutoQueue.

(** What the dispatcher does to its collaborators, in order. *)
Inductive Effect : Type :=
| LogEnqueueing (first last : option Z) (total : nat)
| LogFetch (first last : option Z) (total : nat)
| LogDiscarding
| CallFetchBlocksBatches (blockNums : list Z)
| EmitBlockQueueSize (value : nat)
| CallIndexBlock (height : Z)
| LogFailedToIndex (height : Z)
| LogFailedToFetch
| ProcessExit.

#[global] Instance Effect_eq_dec : EqDecision Effect.
Proof. solve_decision. Defined.

(** Where [fetchBlocksFromQueue] is suspended, if it is running. *)
Inductive FetchLoop : Type :=
| NotRunning
| AwaitingDelay
| AwaitingFetch (blockNums : list Z) (bufferedHeight : option Z).

Record t : Type := mk {
  batchSize : nat;
  queue : Queue.t;
  processQueue : AutoQueue.t;
  latestBufferedHeight : option Z;
  latestProcessedHeight : Z;
  fetching : bool;
  isShutdown : bool;
  loop : FetchLoop;
  exited : bool;
  effects : list Effect
}.

(** The constructor: both queues hold [batchSize * 3].
    [latestProcessedHeight] is the height the base dispatcher was
    initialised with. *)
Definition create (batchSize : nat) (processedHeight : Z) : t :=
  {| batchSize := batchSize;
     queue := {| Queue.capacity := batchSize * 3; Queue.items := [] |};
     processQueue := {| AutoQueue.capacity := batchSize * 3;
                        AutoQueue.tasks := []; AutoQueue.aborted := false |};
     latestBufferedHeight := None;
     latestProcessedHeight := processedHeight;
     fetching := false;
     isShutdown := false;
     loop := NotRunning;
     exited := false;
     effects := [] |}.

Definition upd_queue (q : Queue.t) (s : t) : t :=
  {| batchSize := batchSize s; queue := q; processQueue := processQueue s;
     latestBufferedHeight := latestBufferedHeight s;
     latestProcessedHeight := latestProcessedHeight s;
     fetching := fetching s; isShutdown := isShutdown s; loop := loop s;
     exited := exited s; effects := effects s |}.

Definition upd_processQueue (p : AutoQueue.t) (s : t) : t :=
  {| batchSize := batchSize s; queue := queue s; processQueue := p;
     latestBufferedHeight := latestBufferedHeight s;
     latestProcessedHeight := latestProcessedHeight s;
     fetching := fetching s; isShutdown := isShutdown s; loop := loop s;
     exited := exited s; effects := effects s |}.

Definition upd_latestBufferedHeight (h : option Z) (s : t) : t :=
  {| batchSize := batchSize s; queue := queue s; processQueue := processQueue s;
     latestBufferedHeight := h;
     latestProcessedHeight := latestProcessedHeight s;
     fetching := fetching s; isShutdown := isShutdown s; loop := loop s;
     exited := exited s; effects := effects s |}.

Definition upd_latestProcessedHeight (h : Z) (s : t) : t :=
  {| batchSize := batchSize s; queue := queue s; processQueue := processQueue s;
     latestBufferedHeight := latestBufferedHeight s;
     latestProcessedHeight := h;
     fetching := fetching s; isShutdown := isShutdown s; loop := loop s;
     exited := exited s; effects := effects s |}.

Definition upd_loop (f : bool) (l : FetchLoop) (s : t) : t :=
  {| batchSize := batchSize s; queue := queue s; processQueue := processQueue s;
     latestBufferedHeight := latestBufferedHeight s;
     latestProcessedHeight := latestProcessedHeight s;
     fetching := f; isShutdown := isShutdown s; loop := l;
     exited := exited s; effects := effects s |}.

Definition upd_isShutdown (b : bool) (s : t) : t :=
  {| batchSize := batchSize s; queue := queue s; processQueue := processQueue s;
     latestBufferedHeight := latestBufferedHeight s;
     latestProcessedHeight := latestProcessedHeight s;
     fetching := fetching s; isShutdown := b; loop := loop s;
     exited := exited s; effects := effects s |}.

Definition upd_exited (b : bool) (s : t) : t :=
  {| batchSize := batchSize s; queue := queue s; processQueue := processQueue s;
     latestBufferedHeight := latestBufferedHeight s;
     latestProcessedHeight := latestProcessedHeight s;
     fetching := fetching s; isShutdown := isShutdown s; loop := loop s;
     exited := b; effects := effects s |}.

Definition emit (e : Effect) (s : t) : t :=
  {| batchSize := batchSize s; queue := queue s; processQueue := processQueue s;
     latestBufferedHeight := latestBufferedHeight s;
     latestProcessedHeight := latestProcessedHeight s;
     fetching := fetching s; isShutdown := isShutdown s; loop := loop s;
     exited := exited s; effects := effects s ++ [e] |}.

(** [a > b] and [a < b] on values that may be [undefined]: a comparison
    with [undefined] is false. *)
Definition js_gt (a b : option Z) : bool :=
  match a, b with
  | Some x, Some y => y <? x
  | _, _ => false
  end.

(** [peek < Math.min(...blockNums)]; [Math.min()] of no argument is
    [Infinity]. *)
Definition lt_min (peek : option Z) (blockNums : list Z) : bool :=
  match peek, blockNums with
  | None, _ => false
  | Some _, [] => true
  | Some p, x :: rest => p <? fold_left Z.min rest x
  end.

(** The test guarding [discarding fetched blocks]. *)
Definition queue_was_flushed (bufferedHeight : option Z) (blockNums : list Z) (s : t) : bool :=
  js_gt bufferedHeight (latestBufferedHeight s)
  || lt_min (Queue.peek (queue s)) blockNums.

(** Leaving the [while] loop: the [finally] block resets [fetching]. *)
Definition exit_loop (s : t) : t := upd_loop false NotRunning s.

(** The [catch] block of the fetch loop, followed by [finally]. *)
Definition fail_loop (s : t) : t :=
  let s := emit LogFailedToFetch s in
  let s := if isShutdown s then s else upd_exited true (emit ProcessExit s) in
  exit_loop s.

(** One pass from the [while] test to the next [await], or out of the
    loop. *)
Definition loop_head (s : t) : t :=
  if isShutdown s then exit_loop s
  else
    let n := Nat.min (batchSize s) (AutoQueue.freeSpace (processQueue s)) in
    let '(blockNums, q) := Queue.takeMany n (queue s) in
    let s := upd_queue q s in
    let bufferedHeight := latestBufferedHeight s in
    match blockNums with
    | [] =>
        if negb (bool_decide (Queue.size q = 0%nat))
        then upd_loop true AwaitingDelay s
        else exit_loop s
    | _ :: _ =>
        let s := emit (LogFetch (head blockNums) (last blockNums) (length blockNums)) s in
        let s := emit (CallFetchBlocksBatches blockNums) s in
        upd_loop true (AwaitingFetch blockNums bufferedHeight) s
    end.

(** [fetchBlocksFromQueue], up to its first [await]. *)
Definition fetchBlocksFromQueue (s : t) : t :=
  if fetching s || isShutdown s then s
  else loop_head (upd_loop true (loop s) s).

(** [await this.fetchBlocksBatches(blockNums)] resolves with blocks of the
    given heights; the loop runs on to its next [await]. *)
Definition fetch_resolved (blocks : list Z) (s : t) : t :=
  match loop s with
  | AwaitingFetch blockNums bufferedHeight =>
      if queue_was_flushed bufferedHeight blockNums s then
        loop_head (emit LogDiscarding s)
      else if isShutdown s then exit_loop s
      else
        match AutoQueue.putMany blocks (processQueue s) with
        | Some p =>
            loop_head (emit (EmitBlockQueueSize (AutoQueue.size p)) (upd_processQueue p s))
        | None => fail_loop s
        end
  | _ => s
  end.

(** [await this.fetchBlocksBatches(blockNums)] rejects. *)
Definition fetch_rejected (s : t) : t :=
  match loop s with
  | AwaitingFetch _ _ => fail_loop s
  | _ => s
  end.

(** [await delay(1)] elapses. *)
Definition delay_elapsed (s : t) : t :=
  match loop s with
  | AwaitingDelay => loop_head s
  | _ => s
  end.

(** The task runner starts its next task and the task runs to its end.
    Modelled from the spec: [preProcessBlock] and [postProcessBlock] belong
    to the base dispatcher, which is not among the sources;
    [preProcessBlock(h)] asserts [h > latestProcessedHeight] and
    [postProcessBlock] advances [latestProcessedHeight]. [handlerOk] tells
    whether the user handler behind [indexBlock] succeeds. *)
Definition run_task (handlerOk : bool) (s : t) : t :=
  match AutoQueue.tasks (processQueue s) with
  | [] => s
  | height :: rest =>
      let s := upd_processQueue
                 {| AutoQueue.capacity := AutoQueue.capacity (processQueue s);
                    AutoQueue.tasks := rest;
                    AutoQueue.aborted := AutoQueue.aborted (processQueue s) |} s in
      if height <=? latestProcessedHeight s then
        if isShutdown s then s else emit (LogFailedToIndex height) s
      else
        let s := emit (CallIndexBlock height) s in
        if handlerOk then upd_latestProcessedHeight height s
        else if isShutdown s then s else emit (LogFailedToIndex height) s
  end.

(** [!!latestBufferHeight] *)
Definition truthy (latestBufferHeight : option Z) : bool :=
  match latestBufferHeight with
  | Some h => negb (h =? 0)
  | None => false
  end.

Definition is_nil {A} (l : list A) : bool :=
  match l with [] => true | _ => false end.

Definition enqueueBlocks (cleanedBlocks : list Z) (latestBufferHeight : option Z) (s : t)
  : Outcome t unit :=
  if truthy latestBufferHeight && is_nil cleanedBlocks then
    Returned (upd_latestBufferedHeight latestBufferHeight s) tt
  else
    let s := emit (LogEnqueueing (head cleanedBlocks) (last cleanedBlocks)
                                 (length cleanedBlocks)) s in
    match Queue.putMany cleanedBlocks (queue s) with
    | None => Thrown s (Error "Queue exceeds max size")
    | Some q =>
        let s := upd_queue q s in
        let s := upd_latestBufferedHeight
                   (match latestBufferHeight with
                    | Some h => Some h
                    | None => last cleanedBlocks
                    end) s in
        Returned (fetchBlocksFromQueue s) tt
    end.

(** Modelled from the spec: [super.flushQueue(height)] of the base
    dispatcher truncates the height queue and sets
    [latestBufferedHeight = height]. *)
Definition base_flushQueue (height : Z) (s : t) : t :=
  upd_latestBufferedHeight (Some height) (upd_queue (Queue.flush (queue s)) s).

Definition flushQueue (height : Z) (s : t) : t :=
  let s := base_flushQueue height s in
  upd_processQueue (AutoQueue.flush (processQueue s)) s.

Definition onApplicationShutdown (s : t) : t :=
  let s := upd_isShutdown true s in
  upd_processQueue (AutoQueue.abort (processQueue s)) s.

(** What can happen to a dispatcher: calls from upstream, and the
    completions the event loop delivers. *)
Inductive Event : Type :=
| EnqueueBlocks (heights : list Z) (latestBufferHeight : option Z)
| FlushQueue (height : Z)
| Shutdown
| FetchResolved (blocks : list Z)
| FetchRejected
| DelayElapsed
| RunTask (handlerOk : bool).

Definition step (s : t) (ev : Event) : t :=
  if exited s then s
  else
    match ev with
    | EnqueueBlocks heights h => final_state (enqueueBlocks heights h s)
    | FlushQueue height => flushQueue height s
    | Shutdown => onApplicationShutdown s
    | FetchResolved blocks => fetch_resolved blocks s
    | FetchRejected => fetch_rejected s
    | DelayElapsed => delay_elapsed s
    | RunTask ok => run_task ok s
    end.

Definition run (evs : list Event) (s : t) : t := fold_left step evs s.

(** The heights [indexBlock] was invoked with, in order. *)
Definition indexed (es : list Effect) : list Z :=
  omap (fun e => match e with CallIndexBlock h => Some h | _ => None end) es.

End BlockDispatcher.

(** * Properties *)

(** ** Schema comparison *)

Section SchemaComparison.
Import SchemaMigration.



Lemma str_neq_true (a b : string) : str_neq a b = true ↔ a ≠ b.
Proof.
  unfold str_neq. destruct (String.eqb_spec a b) as [->|Hne]; simpl.
  - split; [discriminate | intros H; by destruct H].
  - split; [by intros _ | reflexivity].
Qed.

Lemma modified_fold_other (oldFields newFields : list FieldDefinitionNode)
    (acc : gmap string FieldChange) (n : string) :
  n ∉ map field_name newFields →
  fold_left (modified_step oldFields) newFields acc !! n = acc !! n.
Proof.
  revert acc. induction newFields as [|f rest IH]; intros acc Hn; simpl; [done|].
  simpl in Hn. apply not_elem_of_cons in Hn as [Hne Hrest].
  rewrite IH by done. unfold modified_step.
  destruct (find_named (field_name f) oldFields); [|done].
  destruct (_ || _); [|done].
  by rewrite lookup_insert_ne.
Qed.

Lemma modified_fold_this (oldFields newFields : list FieldDefinitionNode)
    (acc : gmap string FieldChange) (newField oldField : FieldDefinitionNode) :
  NoDup (map field_name newFields) →
  newField ∈ newFields →
  find_named (field_name newField) oldFields = Some oldField →
  is_Some (fold_left (modified_step oldFields) newFields acc !! field_name newField)
  ↔ (kind (extractTypeDetails (field_type oldField))
       ≠ kind (extractTypeDetails (field_type newField))
     ∨ is_Some (acc !! field_name newField)).
Proof.
  revert acc. induction newFields as [|f rest IH]; intros acc Hnd Hin Hold.
  - by apply elem_of_nil in Hin.
  - simpl in Hnd. apply NoDup_cons in Hnd as [Hfresh Hnd].
    apply elem_of_cons in Hin as [-> | Hin]; simpl.
    + rewrite modified_fold_other by done.
      unfold modified_step. rewrite Hold. rewrite orb_diag.
      destruct (str_neq _ _) eqn:E.
      * apply str_neq_true in E. rewrite lookup_insert_eq. split; eauto.
      * split; [eauto|]. intros [Hk | ?]; [|done].
        apply str_neq_true in Hk. simpl in *. congruence.
    + rewrite IH by done.
      assert (field_name f ≠ field_name newField) as Hne.
      { intros Heq. apply Hfresh. rewrite Heq.
        apply list_elem_of_fmap. eauto. }
      unfold modified_step.
      destruct (find_named (field_name f) oldFields); [|done].
      destruct (_ || _); [|done].
      by rewrite lookup_insert_ne.
Qed.

Lemma visit_next_fold_other (cur next : list DefinitionNode)
    (changes : SchemaChanges) (T : string) :
  T ∉ object_type_names next →
  modifiedEntities (fold_left (visit_next cur) next changes) !! T
  = modifiedEntities changes !! T.
Proof.
  revert changes. induction next as [|d rest IH]; intros changes HT; simpl; [done|].
  destruct d as [n fs | k]; simpl in HT.
  - apply not_elem_of_cons in HT as [Hne Hrest].
    rewrite IH by done. simpl.
    destruct (find_object_type n cur); [|done].
    destruct (_ || _); [|done].
    simpl. by rewrite lookup_insert_ne.
  - by rewrite IH.
Qed.

Lemma visit_current_fold_modified (cur next : list DefinitionNode)
    (changes : SchemaChanges) :
  modifiedEntities (fold_left (visit_current next) cur changes)
  = modifiedEntities changes.
Proof.
  revert changes. induction cur as [|d rest IH]; intros changes; simpl; [done|].
  rewrite IH. destruct d as [n fs | k]; simpl; [|done].
  by destruct (find_object_type n next).
Qed.

(** The entry [compareSchema] records for an object type that both
    documents define. *)
Lemma visit_next_fold_this (cur next : list DefinitionNode)
    (changes : SchemaChanges) (T : string)
    (oldFields newFields : list FieldDefinitionNode) :
  NoDup (object_type_names next) →
  ObjectTypeDefinition T newFields ∈ next →
  find_object_type T cur = Some oldFields →
  modifiedEntities changes !! T = None →
  ∀ n, (∃ ec, modifiedEntities (fold_left (visit_next cur) next changes) !! T = Some ec
              ∧ is_Some (modifiedFields ec !! n))
       ↔ is_Some (compute_modifiedFields oldFields newFields !! n).
Proof.
  revert changes. induction next as [|d rest IH]; intros changes Hnd Hin Hold Hnone n.
  - by apply elem_of_nil in Hin.
  - apply elem_of_cons in Hin as [<- | Hin].
    + simpl in Hnd. apply NoDup_cons in Hnd as [Hfresh _].
      cbn [fold_left]. rewrite visit_next_fold_other by done.
      simpl. rewrite Hold.
      destruct (nonempty _ || nonempty _ || bool_decide _) eqn:E; simpl.
      * rewrite lookup_insert_eq. split.
        -- intros (ec & [= <-] & H). exact H.
        -- intros H. eexists. split; [reflexivity|exact H].
      * rewrite Hnone. split; [by intros (ec & ? & _)|].
        intros [c Hc].
        apply orb_false_iff in E as [_ E].
        apply bool_decide_eq_false in E. exfalso. apply E.
        destruct (decide (size (compute_modifiedFields oldFields newFields) = 0%nat))
          as [Hz|Hz]; [|lia].
        apply map_size_empty_iff in Hz. rewrite Hz in Hc.
        by rewrite lookup_empty in Hc.
    + cbn [fold_left]. destruct d as [m fs | k].
      * simpl in Hnd. apply NoDup_cons in Hnd as [Hfresh Hnd].
        assert (m ≠ T) as Hne.
        { intros ->. apply Hfresh. clear -Hin.
          induction rest as [|d rest IH]; [by apply elem_of_nil in Hin|].
          apply elem_of_cons in Hin as [<- | Hin]; simpl; [left|].
          destruct d; [right|]; eauto. }
        apply IH; try done. simpl.
        destruct (find_object_type m cur); [|done].
        destruct (_ || _); [|done].
        simpl. by rewrite lookup_insert_ne.
      * simpl. by apply IH.
Qed.


Definition schema_v1 : list DefinitionNode :=
  [ OtherDefinition "ScalarTypeDefinition";
    ObjectTypeDefinition "Account"
      [ mkField "id" (NonNullType (NamedType "ID"));
        mkField "balance" (NamedType "Int");
        mkField "tags" (ListType (NamedType "String")) ] ].

Definition schema_v2 : list DefinitionNode :=
  [ OtherDefinition "ScalarTypeDefinition";
    ObjectTypeDefinition "Account"
      [ mkField "id" (NonNullType (NamedType "ID"));
        mkField "balance" (NonNullType (NamedType "BigInt"));
        mkField "tags" (NonNullType (ListType (NamedType "String"))) ] ].


(** A change of nullability or of list wrapping alone is not reported: the
    extracted details of [tags] are the same in both versions. *)
Example compareSchema_wrapping_only :
  modifiedFields <$> (modifiedEntities (compareSchema schema_v1 schema_v2) !! "Account")
  = Some {[ "balance" := {| change_type := mkFromTo "NamedType" "NamedType";
                            change_kind := mkFromTo "Int" "BigInt" |} ]}.
Proof. vm_compute. reflexivity. Qed.

End SchemaComparison.

(** ** Plain objects *)

Section JsObjectFacts.
Import JsObject.
Context {V : Type}.
Implicit Types (o : t V) (k : string) (v : V).

Lemma JsObject_lookup_empty k : (∅ : t V) !! k = None.
Proof. reflexivity. Qed.

Lemma JsObject_entries_empty : entries (∅ : t V) = [].
Proof. reflexivity. Qed.

Lemma has_key_true k (kv : string * V) : has_key k kv = true ↔ kv.1 = k.
Proof. unfold has_key. apply String.eqb_eq. Qed.

Lemma has_key_false k (kv : string * V) : has_key k kv = false ↔ kv.1 ≠ k.
Proof. unfold has_key. apply String.eqb_neq. Qed.

Lemma find_has_key_app k (l1 l2 : list (string * V)) :
  List.find (has_key k) (l1 ++ l2)
  = match List.find (has_key k) l1 with
    | Some x => Some x
    | None => List.find (has_key k) l2
    end.
Proof.
  induction l1 as [|x l1 IH]; simpl; [done|].
  by destruct (has_key k x).
Qed.

Lemma has_key_replace_value k k' v (kv : string * V) :
  has_key k' (replace_value k v kv) = has_key k' kv.
Proof. unfold replace_value. by destruct (has_key k kv). Qed.

Lemma find_replace_value k k' v (l : list (string * V)) :
  List.find (has_key k') (map (replace_value k v) l)
  = replace_value k v <$> List.find (has_key k') l.
Proof.
  induction l as [|y l IH]; simpl; [done|].
  rewrite has_key_replace_value. by destruct (has_key k' y).
Qed.

Lemma JsObject_lookup_assign_eq k v o : assign k v o !! k = Some v.
Proof.
  unfold assign, lookup, t_lookup, own.
  destruct (List.find (has_key k) (props o)) as [x|] eqn:Hfind; simpl.
  - rewrite find_replace_value, Hfind. simpl.
    apply find_some in Hfind as [_ Hx]. unfold replace_value. by rewrite Hx.
  - rewrite find_has_key_app, Hfind.
    simpl. unfold has_key. simpl. by rewrite String.eqb_refl.
Qed.

Lemma JsObject_lookup_assign_ne k k' v o : k ≠ k' → assign k v o !! k' = o !! k'.
Proof.
  intros Hne. unfold assign, lookup, t_lookup, own.
  destruct (List.find (has_key k) (props o)) as [x|] eqn:Hfind; simpl.
  - rewrite find_replace_value.
    destruct (List.find (has_key k') (props o)) as [y|] eqn:Hy; [|done].
    simpl. apply find_some in Hy as [_ Hy]. apply has_key_true in Hy.
    unfold replace_value.
    assert (has_key k y = false) as -> by (apply has_key_false; congruence).
    done.
  - rewrite find_has_key_app.
    destruct (List.find (has_key k') (props o)); [done|]. simpl.
    unfold has_key. simpl. apply String.eqb_neq in Hne. by rewrite Hne.
Qed.

Lemma JsObject_assign_non_empty k v o : assign k v o ≠ ∅.
Proof.
  unfold assign, lookup, t_lookup, own.
  destruct (List.find (has_key k) (props o)) as [x|] eqn:Hfind; simpl.
  - destruct (props o) as [|y l]; [discriminate|]. discriminate.
  - intros [= H]. by destruct (props o).
Qed.

Lemma elem_of_first_props (kv : string * V) (l : list (string * V)) :
  kv ∈ first_props l ↔ List.find (has_key kv.1) l = Some kv.
Proof.
  induction l as [|x l IH]; simpl.
  - split; [by intros ?%elem_of_nil|done].
  - rewrite elem_of_cons, list_elem_of_In, filter_In, <- list_elem_of_In, IH.
    destruct (has_key kv.1 x) eqn:Hx.
    + apply has_key_true in Hx. split.
      * intros [->|[_ Hneg]]; [done|].
        apply negb_true_iff, has_key_false in Hneg. done.
      * intros [= ->]. by left.
    + apply has_key_false in Hx. split.
      * intros [->|[? _]]; done.
      * intros Hfind. right. split; [done|].
        apply negb_true_iff, has_key_false. done.
Qed.

Lemma elem_of_insert_by_index (x : N * (string * V)) n kv (l : list (N * (string * V))) :
  x ∈ insert_by_index n kv l ↔ x = (n, kv) ∨ x ∈ l.
Proof.
  induction l as [|[m y] l IH]; simpl.
  - rewrite list_elem_of_singleton, elem_of_nil. tauto.
  - destruct (n <=? m)%N.
    + by rewrite elem_of_cons.
    + rewrite !elem_of_cons, IH. tauto.
Qed.

Lemma elem_of_sort_by_index (x : N * (string * V)) (l : list (N * (string * V))) :
  x ∈ sort_by_index l ↔ x ∈ l.
Proof.
  induction l as [|[m y] l IH]; simpl; [done|].
  by rewrite elem_of_insert_by_index, elem_of_cons, IH.
Qed.

(** [Object.entries] lists exactly the own properties. *)
Lemma JsObject_elem_of_entries k v o : (k, v) ∈ entries o ↔ o !! k = Some v.
Proof.
  unfold entries. rewrite elem_of_app, list_elem_of_fmap.
  rewrite list_elem_of_In, filter_In, <- list_elem_of_In.
  assert (o !! k = Some v ↔ (k, v) ∈ first_props (props o)) as ->.
  { rewrite elem_of_first_props. simpl.
    unfold lookup, t_lookup, own. split.
    - destruct (List.find (has_key k) (props o)) as [[k' v']|] eqn:Hfind; [|done].
      simpl. intros [= ->]. apply find_some in Hfind as [_ Hk].
      apply has_key_true in Hk. simpl in Hk. by subst.
    - by intros ->. }
  split.
  - intros [([n kv] & -> & Hin)|[Hin _]]; [|done].
    apply elem_of_sort_by_index, list_elem_of_omap in Hin as (kv' & Hin & Hidx).
    unfold with_index in Hidx. destruct (array_index kv'.1); [|done].
    simpl in Hidx. by injection Hidx as _ ->.
  - intros Hin. destruct (array_index k) as [n|] eqn:Hidx.
    + left. exists (n, (k, v)). split; [done|].
      apply elem_of_sort_by_index, list_elem_of_omap. exists (k, v).
      split; [done|]. unfold with_index. simpl. by rewrite Hidx.
    + right. split; [done|]. unfold is_named. simpl. by rewrite Hidx.
Qed.

Lemma JsObject_elem_of_keys k o : k ∈ keys o ↔ is_Some (o !! k).
Proof.
  unfold keys. rewrite list_elem_of_fmap. split.
  - intros ([k' v] & -> & Hin). apply JsObject_elem_of_entries in Hin. eauto.
  - intros [v Hv]. exists (k, v). split; [done|]. by apply JsObject_elem_of_entries.
Qed.

Lemma JsObject_read_own k v o : o !! k = Some v → read k o = Own v.
Proof. unfold read. by intros ->. Qed.

Lemma JsObject_read_absent k o : read k o = Absent ↔ o !! k = None ∧ inherited k = false.
Proof.
  unfold read. destruct (o !! k); [split; [done|by intros [? _]]|].
  destruct (inherited k); split; try done. by intros [_ ?].
Qed.

Lemma JsObject_read_inherited k o : inherited k = true → read k o ≠ Absent.
Proof. intros Hk [_ Hn]%JsObject_read_absent. congruence. Qed.

End JsObjectFacts.

Example entries_order :
  JsObject.keys (JsObject.assign "1" 4 (JsObject.assign "a" 3 (JsObject.assign "2" 2
                  (JsObject.assign "b" 1 (JsObject.assign "01" 0 ∅)))))
  = ["1"; "2"; "01"; "b"; "a"].
Proof. vm_compute. reflexivity. Qed.

(** ** Cached entity model *)

Section CachedModelFacts.
Import CachedModel.

Lemma getCacheOptions_max_succ : ∃ n, getCacheOptions_max = S n.
Proof. exists 499%nat. reflexivity. Qed.

Lemma is_key_refl (k : string) (v : option Entity) : GetData.is_key k (k, v) = true.
Proof. unfold GetData.is_key. simpl. apply String.eqb_refl. Qed.

(** A value just stored is found again, for any positive capacity. *)
Lemma find_entry_set (n : nat) (k : string) (v : option Entity) (c : GetData.t) :
  GetData.find_entry k (GetData.set (S n) k v c) = Some v.
Proof.
  unfold GetData.find_entry, GetData.set. simpl.
  rewrite is_key_refl. reflexivity.
Qed.

Lemma has_find_entry (k : string) (c : GetData.t) :
  GetData.has k c = true ↔ is_Some (GetData.find_entry k c).
Proof.
  unfold GetData.has. destruct (GetData.find_entry k c); split; intros H; eauto.
  - discriminate.
  - by destruct H.
Qed.

Lemma SetValueModel_set_latest (d : Entity) (h : Z) (m m' : SetValueModel.t) :
  SetValueModel.set d h m = Some m' →
  SetValueModel.data <$> SetValueModel.getLatest m' = Some d.
Proof.
  unfold SetValueModel.set, SetValueModel.getLatest.
  destruct (rev m) as [|lastv rinit].
  - intros [= <-]. reflexivity.
  - destruct (h <? _); [discriminate|].
    destruct (_ && _); intros [= <-].
    + by rewrite last_snoc.
    + change [SetValueModel.close_at h lastv;
              {| SetValueModel.data := d; SetValueModel.startHeight := h;
                 SetValueModel.endHeight := None |}]
        with ([SetValueModel.close_at h lastv]
              ++ [{| SetValueModel.data := d; SetValueModel.startHeight := h;
                     SetValueModel.endHeight := None |}]).
      by rewrite app_assoc, last_snoc.
Qed.

(** The lookup order of [get] for an id that names no inherited property:
    [removeCache] first, then [getCache] (the entry may be the negative
    marker), then the latest version held in [setCache], then the row the
    database returns for the primary key (or NULL), which is first stored
    in [getCache]. *)
Lemma get_lookup_order_own_names (db : Table) (i : string) (s : t) :
  (is_Some (removeCache s !! i) → get db i s = Returned s None)
  ∧ (JsObject.read i (removeCache s) = JsObject.Absent →
     ∀ entry, GetData.find_entry i (getCache s) = Some entry →
       get db i s = Returned (with_getCache (GetData.get i (getCache s)).2 s) entry)
  ∧ (JsObject.read i (removeCache s) = JsObject.Absent →
     GetData.find_entry i (getCache s) = None →
     ∀ m latest, setCache s !! i = Some m →
       SetValueModel.getLatest m = Some latest →
       get db i s = Returned s (Some (SetValueModel.data latest)))
  ∧ (JsObject.read i (removeCache s) = JsObject.Absent →
     GetData.find_entry i (getCache s) = None →
     setCache s !! i = None →
     let record := findOne_by_id db i in
     let s' := with_getCache (GetData.set getCacheOptions_max i record (getCache s)) s in
     get db i s = Returned s' record
     ∧ GetData.find_entry i (getCache s') = Some record).
Proof.
  unfold get. split; [|split; [|split]].
  - intros [r Hr]. by rewrite (JsObject_read_own _ _ _ Hr).
  - intros Hrm entry Hentry. rewrite Hrm.
    unfold GetData.has, GetData.get. rewrite Hentry. reflexivity.
  - intros Hrm Hmiss m latest Hm Hlatest. rewrite Hrm.
    unfold GetData.has. rewrite Hmiss. simpl.
    by rewrite (JsObject_read_own _ _ _ Hm), Hlatest.
  - intros Hrm Hmiss Hm. rewrite Hrm. unfold GetData.has. rewrite Hmiss. simpl.
    apply JsObject_read_absent in Hrm as [_ Hname].
    assert (JsObject.read i (setCache s) = JsObject.Absent) as ->
      by (by apply JsObject_read_absent).
    split; [reflexivity|].
    destruct getCacheOptions_max_succ as [n ->]. apply find_entry_set.
Qed.

Definition alice : Entity := mkEntity "alice" {[ "owner" := VStr "0xA" ]}.
Definition alice2 : Entity := mkEntity "alice" {[ "owner" := VStr "0xB" ]}.
Definition bob : Entity := mkEntity "bob" {[ "owner" := VStr "0xB" ]}.

(** The four cases on a run: [bob] is read from the table and cached,
    read again from the read cache, [alice] is read from [setCache] once
    the read cache has dropped her, and is NULL once removed. *)
Example get_lookup_order_run :
  let s0 := create true in
  let s1 := final_state (get [bob] "bob" s0) in
  let s2 := with_getCache GetData.empty (final_state (set "alice" alice 5 s1)) in
  get [bob] "bob" s0 = Returned s1 (Some bob)
  ∧ get [] "bob" s1 = Returned s1 (Some bob)
  ∧ get [] "alice" s2 = Returned s2 (Some alice)
  ∧ get [] "alice" (remove "alice" 7 s2) = Returned (remove "alice" 7 s2) None.
Proof. vm_compute. repeat split; reflexivity. Qed.

(** Once the cached entry has reached its time to live, the table is
    asked again. *)
Example get_after_expiry :
  let s1 := final_state (get [bob] "bob" (create true)) in
  let expired := with_getCache (GetData.expire ["bob"] (getCache s1)) s1 in
  get [alice] "bob" s1 = Returned s1 (Some bob)
  ∧ get [alice] "bob" expired
    = Returned (with_getCache (GetData.set getCacheOptions_max "bob" None GetData.empty) expired)
               None.
Proof. vm_compute. split; reflexivity. Qed.

(** C2. The lookup order does not hold for every id. For an id that is the
    name of a property every object inherits ([constructor], [toString],
    [__proto__], ...) the test on [this.removeCache[id]] succeeds although
    [removeCache] has no entry for the id, and [get] returns NULL whatever
    [getCache], [setCache] and the table hold; nothing is read and nothing
    is cached. *)
Theorem get_inherited_name_null (db : Table) (i : string) (s : t) :
  JsObject.inherited i = true →
  get db i s = Returned s None.
Proof.
  intros Hname. unfold get.
  pose proof (JsObject_read_inherited i (removeCache s) Hname) as Hread.
  by destruct (JsObject.read i (removeCache s)).
Qed.

Definition constructor_row : Entity :=
  mkEntity "constructor" {[ "owner" := VStr "0xC" ]}.

Lemma get_inherited_name_null_witness :
  removeCache (create true) !! "constructor" = None
  ∧ findOne_by_id [constructor_row] "constructor" = Some constructor_row
  ∧ get [constructor_row] "constructor" (create true) = Returned (create true) None.
Proof.
  split; [reflexivity|]. split; [reflexivity|].
  apply (get_inherited_name_null [constructor_row] "constructor" (create true)).
  reflexivity.
Defined.

Lemma set_version_cases (i : string) (data : Entity) (h : Z)
    (model : SetValueModel.t) (models : JsObject.t SetValueModel.t) (s : t) :
  (∃ model', SetValueModel.set data h model = Some model'
     ∧ set_version i data h model models s
       = Returned {| getCache := GetData.set getCacheOptions_max i (Some data) (getCache s);
                     setCache := JsObject.assign i model' models;
                     removeCache := removeCache s;
                     flushableRecordCounter := flushableRecordCounter s + 1;
                     historical := historical s |} tt)
  ∨ (∃ s' e, set_version i data h model models s = Thrown s' e
       ∧ getCache s' = getCache s
       ∧ removeCache s' = removeCache s
       ∧ flushableRecordCounter s' = flushableRecordCounter s).
Proof.
  unfold set_version. destruct (SetValueModel.set data h model) as [model'|].
  - left. eauto.
  - right. eauto 10.
Qed.

(** What a [set] that returns leaves behind, and that a [set] either
    returns or throws. *)
Lemma set_cases (i : string) (data : Entity) (h : Z) (s : t) :
  (∃ model' models,
     SetValueModel.data <$> SetValueModel.getLatest model' = Some data
     ∧ (∀ j, is_Some (setCache s !! j) → is_Some (models !! j))
     ∧ (∀ j m, j ≠ i → models !! j = Some m → setCache s !! j = Some m)
     ∧ set i data h s
       = Returned {| getCache := GetData.set getCacheOptions_max i (Some data) (getCache s);
                     setCache := JsObject.assign i model' models;
                     removeCache := removeCache s;
                     flushableRecordCounter := flushableRecordCounter s + 1;
                     historical := historical s |} tt)
  ∨ (∃ s' e, set i data h s = Thrown s' e
       ∧ getCache s' = getCache s
       ∧ removeCache s' = removeCache s
       ∧ flushableRecordCounter s' = flushableRecordCounter s).
Proof.
  unfold set. destruct (JsObject.read i (setCache s)) as [model| |].
  - destruct (set_version_cases i data h model (setCache s) s)
      as [(model' & Hm & ->)|Hthrown]; [left|by right].
    exists model', (setCache s). split; [by eapply SetValueModel_set_latest|].
    split; [done|]. split; done.
  - right. exists s, TypeError. done.
  - destruct (set_version_cases i data h SetValueModel.empty
                (JsObject.assign i SetValueModel.empty (setCache s)) s)
      as [(model' & Hm & ->)|Hthrown]; [left|by right].
    exists model', (JsObject.assign i SetValueModel.empty (setCache s)).
    split; [by eapply SetValueModel_set_latest|]. split; [|split; [|done]].
    + intros j Hj. destruct (decide (i = j)) as [<-|Hne].
      * rewrite JsObject_lookup_assign_eq. eauto.
      * by rewrite JsObject_lookup_assign_ne.
    + intros j m Hne. by rewrite JsObject_lookup_assign_ne.
Qed.

(** C4, as the code has it. A [set(id, data, h)] that returns has upserted
    into [setCache] a model whose latest data is [data], mirrored [data]
    into [getCache] and added one to [flushableRecordCounter], whether or
    not the id was already present in [setCache]. A [set] that throws
    leaves [getCache] and the counter as they were; and every [set] either
    returns or throws. *)
Theorem set_counts_every_write (i : string) (data : Entity) (h : Z) (s : t) :
  (∀ s', set i data h s = Returned s' tt →
     (∃ m', setCache s' !! i = Some m'
            ∧ SetValueModel.data <$> SetValueModel.getLatest m' = Some data)
     ∧ GetData.find_entry i (getCache s') = Some (Some data)
     ∧ flushableRecordCounter s' = flushableRecordCounter s + 1)
  ∧ (∀ s' e, set i data h s = Thrown s' e →
       getCache s' = getCache s
       ∧ flushableRecordCounter s' = flushableRecordCounter s)
  ∧ ((∃ s', set i data h s = Returned s' tt) ∨ (∃ s' e, set i data h s = Thrown s' e)).
Proof.
  destruct (set_cases i data h s)
    as [(model' & models & Hlatest & _ & _ & Hset)|(s1 & e1 & Hset & Hg & _ & Hc)];
    rewrite Hset.
  - split; [|split; [discriminate|eauto]].
    intros s' [= <-]. simpl. split; [|split; [|reflexivity]].
    + exists model'. by rewrite JsObject_lookup_assign_eq.
    + destruct getCacheOptions_max_succ as [n ->]. apply find_entry_set.
  - split; [discriminate|]. split; [|eauto].
    by intros s' e [= <- _].
Qed.

Definition after_first_set : t := final_state (set "alice" alice 5 (create true)).
Definition after_second_set : t := final_state (set "alice" alice2 8 after_first_set).

Lemma set_counts_every_write_witness :
  flushableRecordCounter after_second_set = flushableRecordCounter after_first_set + 1.
Proof.
  apply (proj1 (set_counts_every_write "alice" alice2 8 after_first_set) after_second_set).
  vm_compute. reflexivity.
Defined.

(** C4 as the spec words it fails: the id is already in [setCache] when the
    second [set] runs, and the counter still moves from 1 to 2. *)
Lemma set_second_write_counted :
  is_Some (setCache after_first_set !! "alice")
  ∧ set "alice" alice2 8 after_first_set = Returned after_second_set tt
  ∧ flushableRecordCounter after_first_set = 1
  ∧ flushableRecordCounter after_second_set = 2
  ∧ ¬ (flushableRecordCounter after_second_set = flushableRecordCounter after_first_set).
Proof.
  vm_compute. repeat split; eauto; discriminate.
Qed.

(** The two ways a [set] throws: the version model refuses a height below
    the one it holds, and the id names an inherited property. *)
Example set_throws :
  set "alice" alice2 3 after_first_set
  = Thrown after_first_set (Error "Can not set record with block height")
  ∧ set "constructor" constructor_row 5 (create true) = Thrown (create true) TypeError.
Proof. vm_compute. split; reflexivity. Qed.

(** C5. With a field other than ['id'], no match in the caches and no row
    in the database, [getOneByField] does not return NULL: reading
    [record.id] of the absent record throws. *)
Theorem getOneByField_absent_record_throws
    (db : Table) (field : string) (value : FieldValue) (s s' : t) :
  field ≠ "id" →
  getFromCache (Some field) (Some (QOne value)) true s = Returned s' [] →
  findOne_where db field value (allCachedIds s') = None →
  getOneByField db field value s = Thrown s' TypeError.
Proof.
  intros Hfield Hcache Hdb. unfold getOneByField.
  destruct (String.eqb_spec field "id") as [Heq|_]; [done|].
  rewrite Hcache. simpl. by rewrite Hdb.
Qed.

Lemma getOneByField_absent_record_throws_witness :
  getOneByField [bob] "owner" (VStr "0xC") (create true)
  = Thrown (create true) TypeError.
Proof.
  apply (getOneByField_absent_record_throws [bob] "owner" (VStr "0xC")
           (create true) (create true)).
  - discriminate.
  - reflexivity.
  - reflexivity.
Defined.

(** After [remove(id, h)], [removeCache[id]] is not [undefined]. *)
Lemma read_removeCache_remove (i : string) (h : Z) (s : t) :
  JsObject.read i (removeCache (remove i h s)) ≠ JsObject.Absent.
Proof.
  unfold remove. destruct (JsObject.read i (removeCache s)) eqn:Hread.
  - by rewrite Hread.
  - by rewrite Hread.
  - destruct (GetData.get i (getCache s)) as [v c]. simpl.
    unfold JsObject.read. by rewrite JsObject_lookup_assign_eq.
Qed.

(** C8. [remove(id, h)] applied twice is the same as applying it once: the
    second call changes none of [setCache], [removeCache], [getCache] and
    [flushableRecordCounter]. *)
Theorem remove_idempotent (i : string) (h : Z) (s : t) :
  remove i h (remove i h s) = remove i h s.
Proof.
  unfold remove at 1.
  pose proof (read_removeCache_remove i h s) as Hread.
  by destruct (JsObject.read i (removeCache (remove i h s))).
Qed.

(** The second call is a no-op whatever height it is given. *)
Lemma remove_again_any_height (i : string) (h h' : Z) (s : t) :
  remove i h' (remove i h s) = remove i h s.
Proof.
  unfold remove at 1.
  pose proof (read_removeCache_remove i h s) as Hread.
  by destruct (JsObject.read i (removeCache (remove i h s))).
Qed.

Lemma set_each_thrown_or_returned (data : list Entity) (h : Z) (s : t) :
  (∃ s' e, set_each data h s = Thrown s' e) ∨ (∃ s', set_each data h s = Returned s' tt).
Proof.
  revert s. induction data as [|entity rest IH]; intros s; simpl.
  - right. eauto.
  - destruct (set_cases (id entity) entity h s)
      as [(model' & models & _ & _ & _ & ->)|(s1 & e1 & -> & _)]; [apply IH|].
    left. eauto.
Qed.

(** C9. [bulkUpdate] called with a non-empty [fields] argument raises an
    error, whatever the entities and the height. *)
Theorem bulkUpdate_fields_raises
    (data : list Entity) (blockHeight : Z) (fields : list string) (s : t) :
  fields ≠ [] →
  ∃ s' e, bulkUpdate data blockHeight (Some fields) s = Thrown s' e.
Proof.
  intros _. unfold bulkUpdate.
  destruct (set_each_thrown_or_returned data blockHeight s) as [(s' & e & ->)|(s' & ->)];
    eauto.
Qed.

Lemma bulkUpdate_fields_raises_witness :
  ∃ s' e, bulkUpdate [alice; bob] 5 (Some ["owner"]) (create true) = Thrown s' e.
Proof.
  apply (bulkUpdate_fields_raises [alice; bob] 5 ["owner"] (create true)).
  discriminate.
Defined.

(** When every [set] goes through, the error is the one about [fields], and
    the writes made before it stay in the cache. *)
Example bulkUpdate_fields_error :
  match bulkUpdate [alice; bob] 5 (Some ["owner"]) (create true) with
  | Thrown s' e =>
      e = Error "Currently not support update by fields"
      ∧ flushableRecordCounter s' = 2
  | _ => False
  end.
Proof. vm_compute. split; reflexivity. Qed.

(** On a model whose [setCache] is empty, [remove(id, h)] leaves
    [isFlushable] false; for an id that names no inherited property
    [removeCache] is then non-empty: pending removals alone do not make
    the model flushable. *)
Lemma remove_alone_not_flushable (i : string) (h : Z) (s : t) :
  setCache s = ∅ →
  isFlushable (remove i h s) = false
  ∧ (JsObject.inherited i = false → removeCache (remove i h s) ≠ ∅).
Proof.
  intros Hempty. unfold remove.
  destruct (JsObject.read i (removeCache s)) as [r| |] eqn:Hread.
  - split; [unfold isFlushable; by rewrite Hempty|].
    intros _ Hnone. rewrite Hnone in Hread. unfold JsObject.read in Hread.
    rewrite JsObject_lookup_empty in Hread. by destruct (JsObject.inherited i).
  - split; [unfold isFlushable; by rewrite Hempty|].
    intros Hname. unfold JsObject.read in Hread. rewrite Hname in Hread.
    by destruct (removeCache s !! i).
  - destruct (GetData.get i (getCache s)) as [v c]. split.
    + unfold isFlushable. simpl. by rewrite Hempty.
    + intros _. simpl. apply JsObject_assign_non_empty.
Qed.

Example remove_alone_not_flushable_run :
  isFlushable (remove "alice" 7 (create true)) = false
  ∧ removeCache (remove "alice" 7 (create true)) ≠ ∅.
Proof.
  destruct (remove_alone_not_flushable "alice" 7 (create true) eq_refl) as [Hf Hr].
  split; [exact Hf|]. by apply Hr.
Qed.

(** C10. The removal is not always recorded. For an id that is the name of
    a property every object inherits ([constructor], [toString],
    [__proto__], ...) the test [this.removeCache[id] === undefined] fails
    although [removeCache] has no entry for the id: [remove] does nothing,
    and on a model without removals [removeCache] is still empty after
    it. *)
Theorem remove_inherited_name_ignored (i : string) (h : Z) (s : t) :
  JsObject.inherited i = true →
  remove i h s = s.
Proof.
  intros Hname. unfold remove.
  pose proof (JsObject_read_inherited i (removeCache s) Hname) as Hread.
  by destruct (JsObject.read i (removeCache s)).
Qed.

Lemma remove_inherited_name_ignored_witness :
  setCache (create true) = ∅
  ∧ remove "constructor" 7 (create true) = create true
  ∧ removeCache (remove "constructor" 7 (create true)) = ∅.
Proof.
  assert (remove "constructor" 7 (create true) = create true) as Hremove.
  { apply (remove_inherited_name_ignored "constructor" 7 (create true)). reflexivity. }
  split; [reflexivity|]. split; [exact Hremove|]. rewrite Hremove. reflexivity.
Defined.

(** Every model that [setCache] holds has a latest version: a model is put
    there by [set], which gives it one at once. *)
Definition versions_present (s : t) : Prop :=
  ∀ i m, setCache s !! i = Some m → is_Some (SetValueModel.getLatest m).

Lemma create_versions_present (historical : bool) : versions_present (create historical).
Proof. intros i m. unfold create. simpl. by rewrite JsObject_lookup_empty. Qed.

Lemma markAsRemoved_latest (h : Z) (m : SetValueModel.t) :
  is_Some (SetValueModel.getLatest m) →
  is_Some (SetValueModel.getLatest (SetValueModel.markAsRemoved h m)).
Proof.
  unfold SetValueModel.markAsRemoved, SetValueModel.getLatest.
  destruct (rev m) as [|lastv rinit]; [done|].
  intros _. rewrite last_snoc. eauto.
Qed.

Lemma set_versions_present (i : string) (data : Entity) (h : Z) (s s' : t) :
  versions_present s →
  set i data h s = Returned s' tt →
  versions_present s'.
Proof.
  intros Hs Hset j m.
  destruct (set_cases i data h s)
    as [(model' & models & Hlatest & _ & Hold & Hret)|(s1 & e1 & Hthrown & _)];
    [|congruence].
  rewrite Hret in Hset. injection Hset as <-. simpl.
  destruct (decide (i = j)) as [<-|Hne].
  - rewrite JsObject_lookup_assign_eq. intros [= <-].
    destruct (SetValueModel.getLatest model'); [eauto|discriminate].
  - rewrite JsObject_lookup_assign_ne by done. intros Hm.
    apply (Hs j). apply Hold; [done|exact Hm].
Qed.

Lemma remove_versions_present (i : string) (h : Z) (s : t) :
  versions_present s → versions_present (remove i h s).
Proof.
  intros Hs j m. unfold remove.
  destruct (JsObject.read i (removeCache s)); [apply Hs|apply Hs|].
  destruct (GetData.get i (getCache s)) as [v c]. simpl.
  destruct (setCache s !! i) as [mi|] eqn:Hmi; [|apply Hs].
  destruct (decide (i = j)) as [<-|Hne].
  - rewrite JsObject_lookup_assign_eq. intros [= <-].
    apply markAsRemoved_latest. by apply (Hs i).
  - rewrite JsObject_lookup_assign_ne by done. apply Hs.
Qed.

End CachedModelFacts.

(** ** Cached metadata model *)

Section CacheMetadataFacts.
Import CacheMetadataModel.

Lemma counter_with_counter (k k' : IncrementKey) (v : option Z) (m : MetadataKeys) :
  counter k (with_counter k' v m) = if decide (k = k') then v else counter k m.
Proof. destruct k, k'; reflexivity. Qed.

Lemma counter_bulkCreate (k : IncrementKey) (ops : list (string * FieldValue))
    (db : MetadataKeys) :
  counter k (bulkCreate ops db) = counter k db.
Proof. destruct k; reflexivity. Qed.

(** What one flushed increment does to the row of key [k]. *)
Lemma counter_flush_increment (k k' : IncrementKey) (pending db : MetadataKeys) :
  counter k (flush_increment pending db k')
  = if decide (k = k')
    then (λ v, v + default 0 (counter k pending)) <$> counter k db
    else counter k db.
Proof.
  unfold flush_increment, incrementJsonbCount.
  destruct (decide (k = k')) as [<-|Hne].
  - destruct (counter k pending) as [amount|]; simpl.
    + destruct (Z.eqb_spec amount 0) as [->|_].
      * destruct (counter k db); simpl; f_equal; lia.
      * destruct (counter k db) eqn:E; simpl; [|by rewrite E].
        rewrite counter_with_counter. by rewrite decide_True.
    + destruct (counter k db); simpl; f_equal; lia.
  - destruct (counter k' pending) as [amount|]; [|done].
    destruct (amount =? 0); [done|].
    destruct (counter k' db); [|done].
    rewrite counter_with_counter. by rewrite decide_False.
Qed.

(** The row of an increment key after a flush: the value stored when the
    flush runs, plus the pending amount. *)
Lemma counter_flush (k : IncrementKey) (db : MetadataKeys) (s : t) :
  counter k (flush db s).1
  = (λ v, v + default 0 (counter k (setCache s))) <$> counter k db.
Proof.
  unfold flush, incrementKeys. simpl.
  rewrite !counter_flush_increment, counter_bulkCreate.
  destruct k; simpl.
  - destruct (counter processedBlockCount db); reflexivity.
  - reflexivity.
Qed.

(** Sums of magnitude up to [2^53] are exact. *)
Lemma js_add_exact (x y : Z) :
  - 2 ^ 53 <= x + y <= 2 ^ 53 → js_add x y = x + y.
Proof.
  intros Hsum. unfold js_add, round_to_double.
  destruct (Z.leb_spec (Z.abs (x + y)) (2 ^ 53)) as [_|Hbig]; [reflexivity|lia].
Qed.

(** The pending amount for [k]: [this.setCache[k] ?? 0]. *)
Definition pending (k : IncrementKey) (s : t) : Z :=
  default 0 (counter k (setCache s)).

(** The integers JavaScript adds exactly, and those of the SQL type [int]. *)
Definition exact_integer (x : Z) : Prop := - 2 ^ 53 <= x <= 2 ^ 53.

Definition sql_int (x : Z) : Prop := - 2 ^ 31 <= x < 2 ^ 31.

(** C3, as the code has it. As long as the pending amount for [k] and its
    sums with [a] and with [a + b] are integers JavaScript adds exactly,
    [setIncrement(k, a)] followed by [setIncrement(k, b)] accumulates
    [a + b] on top of the pending value (0 when there was none); and when
    the table has a row for [k] whose value, the accumulated amount and
    their sum are of the SQL type [int], the flush adds the accumulated
    amount to the value the row holds when the flush runs; it does not
    overwrite the row. *)
Theorem setIncrement_twice_then_flush
    (k : IncrementKey) (a b : Z) (s : t) (db : MetadataKeys) (stored : Z) :
  exact_integer (pending k s + a) →
  exact_integer (pending k s + a + b) →
  counter k db = Some stored →
  sql_int stored →
  sql_int (pending k s + a + b) →
  sql_int (stored + (pending k s + a + b)) →
  counter k (setCache (setIncrement k b (setIncrement k a s)))
    = Some (pending k s + a + b)
  ∧ counter k (flush db (setIncrement k b (setIncrement k a s))).1
    = Some (stored + (pending k s + a + b))
  ∧ (counter k (setCache s) = None →
     counter k (flush db (setIncrement k b (setIncrement k a s))).1
     = Some (stored + a + b)).
Proof.
  intros Ha Hab Hrow _ _ _.
  assert (counter k (setCache (setIncrement k b (setIncrement k a s)))
          = Some (pending k s + a + b)) as Hpending.
  { unfold setIncrement. simpl. rewrite !counter_with_counter.
    rewrite !decide_True by done. simpl. fold (pending k s).
    rewrite (js_add_exact (pending k s) a) by exact Ha.
    by rewrite js_add_exact by exact Hab. }
  split; [exact Hpending|].
  rewrite counter_flush, Hpending, Hrow. simpl. split; [reflexivity|].
  unfold pending. intros ->. simpl. f_equal. lia.
Qed.

Definition table_at_10 : MetadataKeys :=
  {| processedBlockCount_ := Some 10; schemaMigrationCount_ := Some 0;
     others := {[ "chain" := VStr "polkadot" ]} |}.

Lemma setIncrement_twice_then_flush_witness :
  counter processedBlockCount
    (setCache (setIncrement processedBlockCount 2 (setIncrement processedBlockCount 3 create)))
  = Some 5
  ∧ counter processedBlockCount
      (flush table_at_10
         (setIncrement processedBlockCount 2 (setIncrement processedBlockCount 3 create))).1
    = Some 15.
Proof.
  destruct (setIncrement_twice_then_flush processedBlockCount 3 2 create table_at_10 10)
    as (Hpending & Hflush & _);
    [vm_compute; split; discriminate | vm_compute; split; discriminate | reflexivity
    | vm_compute; split; [discriminate|reflexivity]
    | vm_compute; split; [discriminate|reflexivity]
    | vm_compute; split; [discriminate|reflexivity] |].
  split; [exact Hpending|exact Hflush].
Defined.

Definition pending_2_53 : t := setIncrement processedBlockCount (2 ^ 53) create.

(** C3 as the spec words it fails beyond the integers JavaScript adds
    exactly. From nothing pending, [setIncrement(k, 2^53)] and
    [setIncrement(k, 1)] leave [2^53] pending, not [2^53 + 1]. And with
    [2^53] pending, [setIncrement(k, 1)] twice leaves [2^53] pending: the
    two amounts are lost, although [2^53 + (1 + 1)] is a number JavaScript
    holds exactly. *)
Lemma setIncrement_rounds_beyond_2_53 :
  counter processedBlockCount (setCache create) = None
  ∧ counter processedBlockCount
      (setCache (setIncrement processedBlockCount 1
                   (setIncrement processedBlockCount (2 ^ 53) create)))
    = Some (2 ^ 53)
  ∧ 2 ^ 53 ≠ 0 + 2 ^ 53 + 1
  ∧ counter processedBlockCount (setCache pending_2_53) = Some (2 ^ 53)
  ∧ counter processedBlockCount
      (setCache (setIncrement processedBlockCount 1
                   (setIncrement processedBlockCount 1 pending_2_53)))
    = Some (2 ^ 53)
  ∧ js_add (2 ^ 53) (js_add 1 1) = 2 ^ 53 + 1 + 1
  ∧ 2 ^ 53 ≠ 2 ^ 53 + 1 + 1.
Proof. vm_compute. repeat split; discriminate. Qed.

(** Without a row for the key the flush has nothing to add to. *)
Lemma flush_increment_needs_row (k : IncrementKey) (db : MetadataKeys) (s : t) :
  counter k db = None → counter k (flush db s).1 = None.
Proof. intros Hrow. by rewrite counter_flush, Hrow. Qed.

End CacheMetadataFacts.

(** ** Serial block dispatcher *)

Section BlockDispatcherFacts.
Import BlockDispatcher.

(** [flushQueue] empties the height queue and the backlog of the task
    runner, and rewinds the watermark. *)
Lemma flushQueue_empties_both (height : Z) (s : t) :
  Queue.items (queue (flushQueue height s)) = []
  ∧ AutoQueue.tasks (processQueue (flushQueue height s)) = []
  ∧ latestBufferedHeight (flushQueue height s) = Some height.
Proof. repeat split. Qed.

(** The fetch loop itself never touches the backlog of the task runner
    between two [await]s; only a resolved fetch adds to it. *)
Lemma loop_head_processQueue (s : t) : processQueue (loop_head s) = processQueue s.
Proof.
  unfold loop_head. destruct (isShutdown s); [reflexivity|].
  unfold Queue.takeMany.
  destruct (take _ _); simpl; [|reflexivity].
  by destruct (negb _).
Qed.

Lemma queue_was_flushed_spec (bufferedHeight : option Z) (blockNums : list Z) (s : t) :
  queue_was_flushed bufferedHeight blockNums s = true
  ↔ js_gt bufferedHeight (latestBufferedHeight s) = true
    ∨ lt_min (Queue.peek (queue s)) blockNums = true.
Proof. unfold queue_was_flushed. apply orb_true_iff. Qed.

(** A batch whose fetch resolves is dropped when the test holds: the
    backlog stays as it was. *)
Lemma fetch_resolved_stale (blocks blockNums : list Z) (bufferedHeight : option Z) (s : t) :
  loop s = AwaitingFetch blockNums bufferedHeight →
  queue_was_flushed bufferedHeight blockNums s = true →
  fetch_resolved blocks s = loop_head (emit LogDiscarding s)
  ∧ processQueue (fetch_resolved blocks s) = processQueue s.
Proof.
  intros Hloop Hstale. unfold fetch_resolved. rewrite Hloop, Hstale.
  split; [reflexivity|]. by rewrite loop_head_processQueue.
Qed.

(** And it is submitted, in order, whenever the test fails. *)
Lemma fetch_resolved_fresh (blocks blockNums : list Z) (bufferedHeight : option Z)
    (s : t) (p : AutoQueue.t) :
  loop s = AwaitingFetch blockNums bufferedHeight →
  queue_was_flushed bufferedHeight blockNums s = false →
  isShutdown s = false →
  AutoQueue.putMany blocks (processQueue s) = Some p →
  AutoQueue.tasks (processQueue (fetch_resolved blocks s))
  = AutoQueue.tasks (processQueue s) ++ blocks.
Proof.
  intros Hloop Hfresh Hlive Hput. unfold fetch_resolved.
  rewrite Hloop, Hfresh, Hlive, Hput, loop_head_processQueue. simpl.
  revert Hput. unfold AutoQueue.putMany.
  destruct (AutoQueue.aborted _); [discriminate|].
  destruct (bool_decide _); [|discriminate].
  by intros [= <-].
Qed.

(** A dispatcher with [batchSize = 4] that has processed height 9 is given
    the heights 10 to 17; the first batch, 10 to 13, is being fetched. *)
Definition fetching_first_batch : t :=
  run [EnqueueBlocks [10; 11; 12; 13; 14; 15; 16; 17] None] (create 4 9).

(** While that fetch is in flight the queue is flushed back to 9 and the
    heights 20 and 21 are enqueued. *)
Definition flushed_and_refilled : t :=
  run [FlushQueue 9; EnqueueBlocks [20; 21] None] fetching_first_batch.

(** The fetch of 10 to 13 resolves and the task runner runs four tasks. *)
Definition after_stale_fetch : t :=
  run [FetchResolved [10; 11; 12; 13];
       RunTask true; RunTask true; RunTask true; RunTask true]
      flushed_and_refilled.

(** C1. The property fails on the code. After [flushQueue(9)] and
    [enqueueBlocks([20, 21])] both queues hold nothing from before the
    flush and nothing has been indexed, yet the batch 10 to 13 that was in
    flight passes the test (the snapshot 17 does not exceed the new
    watermark 21, and the queue head 20 is not below 10), so [indexBlock]
    is then invoked for 10, 11, 12 and 13. *)
Theorem stale_batch_indexed_after_flush :
  loop fetching_first_batch = AwaitingFetch [10; 11; 12; 13] (Some 17)
  ∧ Queue.items (queue flushed_and_refilled) = [20; 21]
  ∧ AutoQueue.tasks (processQueue flushed_and_refilled) = []
  ∧ latestBufferedHeight flushed_and_refilled = Some 21
  ∧ indexed (effects flushed_and_refilled) = []
  ∧ queue_was_flushed (Some 17) [10; 11; 12; 13] flushed_and_refilled = false
  ∧ indexed (effects after_stale_fetch) = [10; 11; 12; 13]
  ∧ 10 ∉ [20; 21].
Proof.
  repeat split; try (vm_compute; reflexivity).
  intros Hin.
  repeat (apply elem_of_cons in Hin as [Hin|Hin]; [discriminate|]).
  by apply elem_of_nil in Hin.
Qed.

(** When the very heights that were queued come back after the flush, the
    batch fetched before the flush is kept as well: it is indexed, the same
    heights are then fetched a second time, and the tasks of that second
    fetch are refused by [preProcessBlock]. *)
Example stale_batch_kept_when_heights_return :
  effects (run [FlushQueue 9; EnqueueBlocks [10; 11; 12; 13; 14; 15; 16; 17] None;
                FetchResolved [10; 11; 12; 13];
                RunTask true; RunTask true; RunTask true; RunTask true;
                FetchResolved [10; 11; 12; 13]; RunTask true]
               fetching_first_batch)
  = [ LogEnqueueing (Some 10) (Some 17) 8;
      LogFetch (Some 10) (Some 13) 4; CallFetchBlocksBatches [10; 11; 12; 13];
      LogEnqueueing (Some 10) (Some 17) 8;
      EmitBlockQueueSize 4;
      LogFetch (Some 10) (Some 13) 4; CallFetchBlocksBatches [10; 11; 12; 13];
      CallIndexBlock 10; CallIndexBlock 11; CallIndexBlock 12; CallIndexBlock 13;
      EmitBlockQueueSize 4;
      LogFetch (Some 14) (Some 17) 4; CallFetchBlocksBatches [14; 15; 16; 17];
      LogFailedToIndex 10 ].
Proof. vm_compute. reflexivity. Qed.

(** Heights are indexed in the order they were enqueued. *)
Example heights_indexed_in_order :
  indexed (effects (run [EnqueueBlocks [10; 11; 12; 13] None;
                         FetchResolved [10; 11; 12; 13];
                         RunTask true; RunTask true; RunTask true; RunTask true]
                        (create 4 9)))
  = [10; 11; 12; 13]
  ∧ latestProcessedHeight
      (run [EnqueueBlocks [10; 11; 12; 13] None;
            FetchResolved [10; 11; 12; 13];
            RunTask true; RunTask true; RunTask true; RunTask true]
           (create 4 9)) = 13.
Proof. vm_compute. split; reflexivity. Qed.

(** A flush after the first fetch has resolved discards the submitted tasks
    and makes the loop drop the second batch. *)
Example flush_after_fetch_discards_tasks :
  indexed (effects (run [FetchResolved [10; 11; 12; 13];
                         FlushQueue 9;
                         RunTask true;
                         FetchResolved [14; 15; 16; 17];
                         RunTask true]
                        fetching_first_batch)) = [].
Proof. vm_compute. reflexivity. Qed.

(** The same batch is dropped when the refilled queue starts below it. *)
Example stale_batch_dropped_when_head_is_lower :
  indexed (effects (run [FlushQueue 9; EnqueueBlocks [9; 10] None;
                         FetchResolved [10; 11; 12; 13];
                         RunTask true; RunTask true]
                        fetching_first_batch)) = [].
Proof. vm_compute. reflexivity. Qed.

(** [enqueueBlocks([], h)] with a non-zero [h] only moves the watermark. *)
Lemma enqueueBlocks_empty_nonzero (h : Z) (s : t) :
  h ≠ 0 →
  enqueueBlocks [] (Some h) s = Returned (upd_latestBufferedHeight (Some h) s) tt.
Proof.
  intros Hh. unfold enqueueBlocks, truthy.
  destruct (Z.eqb_spec h 0); [done|reflexivity].
Qed.

(** With [h = 0] the guard [!!latestBufferHeight] is false and the call
    takes the general path: it logs, calls [putMany([])], sets the
    watermark and calls [fetchBlocksFromQueue]. *)
Lemma enqueueBlocks_empty_zero_general_path (s : t) :
  ∃ q, Queue.putMany [] (queue s) = Some q
       ∧ enqueueBlocks [] (Some 0) s
         = Returned (fetchBlocksFromQueue
                       (upd_latestBufferedHeight (Some 0)
                          (upd_queue q (emit (LogEnqueueing None None 0) s)))) tt.
Proof.
  unfold enqueueBlocks, Queue.putMany. simpl. eauto.
Qed.

(** On an idle dispatcher that call enters the fetch loop. *)
Lemma fetchBlocksFromQueue_idle (s : t) :
  fetching s = false → isShutdown s = false →
  fetchBlocksFromQueue s = loop_head (upd_loop true (loop s) s).
Proof. intros Hf Hs. unfold fetchBlocksFromQueue. by rewrite Hf, Hs. Qed.

(** C6. The property fails at [latestBufferedHeight = 0]: on a fresh
    dispatcher [enqueueBlocks([], 0)] does more than move the watermark. It
    logs the enqueueing line and goes through [fetchBlocksFromQueue]; the
    outcome is not the one of the watermark-only path. *)
Theorem enqueueBlocks_empty_zero_not_watermark_only :
  enqueueBlocks [] (Some 0) (create 4 9)
  = Returned (loop_head
                (upd_loop true NotRunning
                   (upd_latestBufferedHeight (Some 0)
                      (emit (LogEnqueueing None None 0) (create 4 9))))) tt
  ∧ effects (final_state (enqueueBlocks [] (Some 0) (create 4 9)))
    = [LogEnqueueing None None 0]
  ∧ enqueueBlocks [] (Some 0) (create 4 9)
    ≠ Returned (upd_latestBufferedHeight (Some 0) (create 4 9)) tt
  ∧ enqueueBlocks [] (Some 5) (create 4 9)
    = Returned (upd_latestBufferedHeight (Some 5) (create 4 9)) tt.
Proof.
  repeat split; try (vm_compute; reflexivity).
  vm_compute. discriminate.
Qed.

(** The loop is idle only with an empty height queue: it leaves the [while]
    only when nothing is left to take. Stated for a dispatcher that is
    neither shut down nor exited. *)
Definition idle_only_when_empty (s : t) : Prop :=
  exited s = false → isShutdown s = false →
  match loop s with
  | NotRunning => fetching s = false ∧ Queue.items (queue s) = []
  | _ => fetching s = true
  end.

Lemma loop_head_idle_only_when_empty (s : t) : idle_only_when_empty (loop_head s).
Proof.
  unfold idle_only_when_empty, loop_head.
  destruct (isShutdown s) eqn:Hs; simpl; [by rewrite Hs|].
  destruct (take _ _) eqn:Htake; simpl; [|done].
  destruct (bool_decide _) eqn:Hsize; simpl; [|done].
  intros _ _. split; [done|].
  apply bool_decide_eq_true in Hsize. unfold Queue.size in Hsize. simpl in Hsize.
  by apply nil_length_inv.
Qed.

Lemma fail_loop_idle_only_when_empty (s : t) : idle_only_when_empty (fail_loop s).
Proof.
  unfold idle_only_when_empty, fail_loop. simpl.
  destruct (isShutdown s) eqn:Hs; simpl; [by rewrite Hs | discriminate].
Qed.

Lemma step_idle_only_when_empty (s : t) (ev : Event) :
  idle_only_when_empty s → idle_only_when_empty (step s ev).
Proof.
  intros Hinv. unfold step. destruct (exited s) eqn:Hex; [done|].
  destruct ev as [heights h| height | | blocks | | | ok].
  - unfold enqueueBlocks.
    destruct (truthy h && is_nil heights); [exact Hinv|].
    destruct (Queue.putMany _ _) as [q|] eqn:Hput; [|exact Hinv].
    simpl. unfold fetchBlocksFromQueue. simpl.
    destruct (fetching s) eqn:Hf; simpl.
    + intros _ Hs. simpl in Hs. specialize (Hinv Hex Hs). simpl.
      destruct (loop s); [|done..]. destruct Hinv. congruence.
    + destruct (isShutdown s) eqn:Hs; [by intros _ ?; simpl in *; congruence|].
      apply loop_head_idle_only_when_empty.
  - intros _ Hs. simpl in *. specialize (Hinv Hex Hs).
    destruct (loop s); [|done..]. by destruct Hinv.
  - intros _ Hs. simpl in Hs. discriminate.
  - unfold fetch_resolved. destruct (loop s) eqn:Hl; [done..|].
    destruct (queue_was_flushed _ _ _); [apply loop_head_idle_only_when_empty|].
    destruct (isShutdown s) eqn:Hs; [intros _ ?; simpl in *; congruence|].
    destruct (AutoQueue.putMany _ _);
      [apply loop_head_idle_only_when_empty | apply fail_loop_idle_only_when_empty].
  - unfold fetch_rejected. destruct (loop s); [done..|].
    apply fail_loop_idle_only_when_empty.
  - unfold delay_elapsed. destruct (loop s); [done| |done].
    apply loop_head_idle_only_when_empty.
  - unfold run_task. destruct (AutoQueue.tasks _); [done|].
    simpl. destruct (_ <=? _); simpl.
    + destruct (isShutdown s); exact Hinv.
    + destruct ok; [exact Hinv|]. destruct (isShutdown s); exact Hinv.
Qed.

Lemma run_idle_only_when_empty (evs : list Event) (s : t) :
  idle_only_when_empty s → idle_only_when_empty (run evs s).
Proof.
  revert s. induction evs as [|ev evs IH]; intros s Hs; [done|].
  apply IH. by apply step_idle_only_when_empty.
Qed.

Lemma create_idle_only_when_empty (batchSize : nat) (processedHeight : Z) :
  idle_only_when_empty (create batchSize processedHeight).
Proof. intros _ _. by split. Qed.

(** On a live dispatcher whose loop is idle, the pass through the fetch loop
    that [enqueueBlocks([], 0)] makes finds nothing: what sets the call
    apart from the watermark-only path is the logged line. *)
Lemma enqueueBlocks_empty_zero_idle (s : t) :
  idle_only_when_empty s →
  exited s = false → isShutdown s = false → fetching s = false →
  enqueueBlocks [] (Some 0) s
  = Returned (emit (LogEnqueueing None None 0) (upd_latestBufferedHeight (Some 0) s)) tt.
Proof.
  intros Hinv Hex Hs Hf. specialize (Hinv Hex Hs).
  destruct (loop s) eqn:Hl; [|congruence..].
  destruct Hinv as [_ Hq].
  unfold enqueueBlocks, fetchBlocksFromQueue, loop_head, Queue.putMany.
  simpl. rewrite Hf, Hs. simpl. rewrite Hq. simpl.
  rewrite take_nil, drop_nil. simpl.
  destruct s as [bs [cap its] pq lbh lph f sd l ex es]. simpl in *. by subst.
Qed.

(** This covers every state reached from a fresh dispatcher. *)
Lemma enqueueBlocks_empty_zero_reachable (evs : list Event) (batchSize : nat)
    (processedHeight : Z) :
  exited (run evs (create batchSize processedHeight)) = false →
  isShutdown (run evs (create batchSize processedHeight)) = false →
  fetching (run evs (create batchSize processedHeight)) = false →
  enqueueBlocks [] (Some 0) (run evs (create batchSize processedHeight))
  = Returned (emit (LogEnqueueing None None 0)
                (upd_latestBufferedHeight (Some 0)
                   (run evs (create batchSize processedHeight)))) tt.
Proof.
  apply enqueueBlocks_empty_zero_idle, run_idle_only_when_empty,
    create_idle_only_when_empty.
Qed.

End BlockDispatcherFacts.

(** * Further properties *)

(** ** Schema comparison: added and removed entities *)

Section SchemaEntities.
Import SchemaMigration.

Lemma find_object_type_None (T : string) (defs : list DefinitionNode) :
  find_object_type T defs = None ↔ T ∉ object_type_names defs.
Proof.
  induction defs as [|[n fs|k] rest IH]; simpl.
  - split; [intros _; apply not_elem_of_nil | done].
  - destruct (String.eqb_spec n T) as [->|Hne].
    + split; [discriminate|]. intros H. exfalso. apply H. left.
    + rewrite IH, not_elem_of_cons. split; [by intros ?|by intros [_ ?]].
  - exact IH.
Qed.

Lemma find_object_type_Some (T : string) (defs : list DefinitionNode) :
  is_Some (find_object_type T defs) ↔ T ∈ object_type_names defs.
Proof.
  destruct (find_object_type T defs) eqn:E.
  - split; [intros _|eauto].
    destruct (decide (T ∈ object_type_names defs)) as [|Hn]; [done|].
    apply find_object_type_None in Hn. congruence.
  - split; [by intros []|]. intros Hin.
    apply find_object_type_None in E. done.
Qed.

Lemma visit_next_fold_added (cur next : list DefinitionNode) (changes : SchemaChanges) :
  addedEntities (fold_left (visit_next cur) next changes)
  = addedEntities changes
    ++ List.filter (λ n, bool_decide (n ∉ object_type_names cur)) (object_type_names next).
Proof.
  revert changes. induction next as [|[n fs|k] rest IH]; intros changes; simpl.
  - by rewrite app_nil_r.
  - rewrite IH. simpl. destruct (find_object_type n cur) eqn:E.
    + assert (n ∈ object_type_names cur) as Hin.
      { apply find_object_type_Some. rewrite E. eauto. }
      rewrite (bool_decide_eq_false_2 (n ∉ object_type_names cur))
        by (intros Hn; by apply Hn).
      by destruct (_ || _).
    + apply find_object_type_None in E.
      rewrite bool_decide_eq_true_2 by done. simpl. by rewrite <- app_assoc.
  - apply IH.
Qed.

Lemma visit_next_fold_removed (cur next : list DefinitionNode) (changes : SchemaChanges) :
  removedEntities (fold_left (visit_next cur) next changes) = removedEntities changes.
Proof.
  revert changes. induction next as [|[n fs|k] rest IH]; intros changes; simpl; [done| |].
  - rewrite IH. destruct (find_object_type n cur); [|done]. by destruct (_ || _).
  - apply IH.
Qed.

Lemma visit_current_fold_added (cur next : list DefinitionNode) (changes : SchemaChanges) :
  addedEntities (fold_left (visit_current next) cur changes) = addedEntities changes.
Proof.
  revert changes. induction cur as [|[n fs|k] rest IH]; intros changes; simpl; [done| |].
  - rewrite IH. by destruct (find_object_type n next).
  - apply IH.
Qed.

Lemma visit_current_fold_removed (cur next : list DefinitionNode) (changes : SchemaChanges) :
  removedEntities (fold_left (visit_current next) cur changes)
  = removedEntities changes
    ++ List.filter (λ n, bool_decide (n ∉ object_type_names next)) (object_type_names cur).
Proof.
  revert changes. induction cur as [|[n fs|k] rest IH]; intros changes; simpl.
  - by rewrite app_nil_r.
  - rewrite IH. simpl. destruct (find_object_type n next) eqn:E.
    + assert (n ∈ object_type_names next) as Hin.
      { apply find_object_type_Some. rewrite E. eauto. }
      by rewrite bool_decide_eq_false_2 by (intros Hn; by apply Hn).
    + apply find_object_type_None in E.
      rewrite bool_decide_eq_true_2 by done. simpl. by rewrite <- app_assoc.
  - apply IH.
Qed.

Lemma elem_of_filter_names (P : string → Prop) `{!∀ n, Decision (P n)}
    (T : string) (names : list string) :
  T ∈ List.filter (λ n, bool_decide (P n)) names ↔ T ∈ names ∧ P T.
Proof.
  rewrite !list_elem_of_In, filter_In, bool_decide_eq_true. reflexivity.
Qed.

Lemma compareSchema_added_removed_char
    (cur next : list DefinitionNode) (T : string) :
  (T ∈ addedEntities (compareSchema cur next)
   ↔ T ∈ object_type_names next ∧ T ∉ object_type_names cur)
  ∧ (T ∈ removedEntities (compareSchema cur next)
     ↔ T ∈ object_type_names cur ∧ T ∉ object_type_names next).
Proof.
  unfold compareSchema.
  rewrite visit_current_fold_added, visit_next_fold_added.
  rewrite visit_current_fold_removed, visit_next_fold_removed. simpl.
  split; apply elem_of_filter_names.
Qed.

(** [compareSchema] reports as added exactly the object types the next
    document defines and the current one does not, and as removed exactly
    those the current document defines and the next one does not. *)
Theorem compareSchema_added_removed
    (currentSchemaAST nextSchemaAST : list DefinitionNode) (typeName : string) :
  (typeName ∈ addedEntities (compareSchema currentSchemaAST nextSchemaAST)
   ↔ typeName ∈ object_type_names nextSchemaAST
     ∧ typeName ∉ object_type_names currentSchemaAST)
  ∧ (typeName ∈ removedEntities (compareSchema currentSchemaAST nextSchemaAST)
     ↔ typeName ∈ object_type_names currentSchemaAST
       ∧ typeName ∉ object_type_names nextSchemaAST).
Proof. apply compareSchema_added_removed_char. Qed.

Lemma visit_next_fold_modified_dom (cur next : list DefinitionNode)
    (changes : SchemaChanges) (T : string) :
  is_Some (modifiedEntities (fold_left (visit_next cur) next changes) !! T) →
  is_Some (modifiedEntities changes !! T)
  ∨ (T ∈ object_type_names next ∧ T ∈ object_type_names cur).
Proof.
  revert changes. induction next as [|[n fs|k] rest IH]; intros changes; simpl; [eauto| |].
  - intros H. apply IH in H as [H|[H1 H2]].
    + simpl in H. destruct (find_object_type n cur) eqn:E; [|by left].
      destruct (_ || _); [|by left]. simpl in H.
      destruct (decide (n = T)) as [->|Hne].
      * right. split; [left|]. apply find_object_type_Some. rewrite E. eauto.
      * rewrite lookup_insert_ne in H by done. by left.
    + right. split; [by right|done].
  - apply IH.
Qed.

(** No type name is reported in two categories: an entity with an entry in
    [modifiedEntities] is defined by both documents, so it is neither added
    nor removed, and an added entity is never removed. *)
Theorem compareSchema_categories_disjoint
    (currentSchemaAST nextSchemaAST : list DefinitionNode) (typeName : string) :
  (is_Some (modifiedEntities (compareSchema currentSchemaAST nextSchemaAST) !! typeName) →
   typeName ∈ object_type_names currentSchemaAST
   ∧ typeName ∈ object_type_names nextSchemaAST
   ∧ (typeName ∉ addedEntities (compareSchema currentSchemaAST nextSchemaAST))
   ∧ (typeName ∉ removedEntities (compareSchema currentSchemaAST nextSchemaAST)))
  ∧ ¬ (typeName ∈ addedEntities (compareSchema currentSchemaAST nextSchemaAST)
       ∧ typeName ∈ removedEntities (compareSchema currentSchemaAST nextSchemaAST)).
Proof.
  pose proof (compareSchema_added_removed_char currentSchemaAST nextSchemaAST) as Hchar.
  destruct (Hchar typeName) as [Hadd Hrem].
  split.
  - intros Hmod. unfold compareSchema in Hmod.
    rewrite visit_current_fold_modified in Hmod.
    apply visit_next_fold_modified_dom in Hmod as [Hmod|[Hn Hc]].
    { simpl in Hmod. rewrite lookup_empty in Hmod. by destruct Hmod. }
    rewrite Hadd, Hrem. tauto.
  - rewrite Hadd, Hrem. tauto.
Qed.

Lemma find_object_type_elem (n : string) (fs : list FieldDefinitionNode)
    (defs : list DefinitionNode) :
  NoDup (object_type_names defs) →
  ObjectTypeDefinition n fs ∈ defs →
  find_object_type n defs = Some fs.
Proof.
  induction defs as [|[m gs|k] rest IH]; intros Hnd Hin.
  - by apply elem_of_nil in Hin.
  - simpl in *. apply NoDup_cons in Hnd as [Hfresh Hnd].
    apply elem_of_cons in Hin as [[= -> ->]|Hin].
    + by rewrite String.eqb_refl.
    + destruct (String.eqb_spec m n) as [->|_]; [|by apply IH].
      exfalso. apply Hfresh. apply find_object_type_Some.
      rewrite (IH Hnd Hin). eauto.
  - simpl in *. apply elem_of_cons in Hin as [?|Hin]; [done|]. by apply IH.
Qed.

Lemma find_named_elem (f : FieldDefinitionNode) (fs : list FieldDefinitionNode) :
  NoDup (map field_name fs) → f ∈ fs → find_named (field_name f) fs = Some f.
Proof.
  unfold find_named. induction fs as [|g rest IH]; intros Hnd Hin.
  - by apply elem_of_nil in Hin.
  - simpl in *. apply NoDup_cons in Hnd as [Hfresh Hnd].
    apply elem_of_cons in Hin as [->|Hin].
    + by rewrite String.eqb_refl.
    + destruct (String.eqb_spec (field_name g) (field_name f)) as [Heq|_]; [|by apply IH].
      exfalso. apply Hfresh. rewrite Heq. by apply list_elem_of_fmap_2.
Qed.

Lemma some_named_elem (f : FieldDefinitionNode) (fs : list FieldDefinitionNode) :
  f ∈ fs → some_named (field_name f) fs = true.
Proof.
  intros Hin. unfold some_named. apply existsb_exists. exists f.
  split; [by apply list_elem_of_In | apply String.eqb_refl].
Qed.

Lemma filter_unnamed_nil (l fs : list FieldDefinitionNode) :
  (∀ f, f ∈ l → f ∈ fs) →
  List.filter (λ f, negb (some_named (field_name f) fs)) l = [].
Proof.
  induction l as [|f rest IH]; intros Hsub; simpl; [done|].
  rewrite some_named_elem by (apply Hsub; left). simpl.
  apply IH. intros g Hg. apply Hsub. by right.
Qed.

Lemma modified_fold_same (l fs : list FieldDefinitionNode) (acc : gmap string FieldChange) :
  NoDup (map field_name fs) →
  (∀ f, f ∈ l → f ∈ fs) →
  fold_left (modified_step fs) l acc = acc.
Proof.
  intros Hnd. revert acc. induction l as [|f rest IH]; intros acc Hsub; simpl; [done|].
  rewrite IH by (intros g Hg; apply Hsub; by right).
  unfold modified_step. rewrite find_named_elem by (done || apply Hsub; left).
  unfold str_neq. by rewrite String.eqb_refl.
Qed.

(** Comparing a document with itself reports nothing, provided it defines
    each object type once and each of its types names each field once. *)
Theorem compareSchema_same_document (schemaAST : list DefinitionNode) :
  NoDup (object_type_names schemaAST) →
  (∀ n fs, ObjectTypeDefinition n fs ∈ schemaAST → NoDup (map field_name fs)) →
  compareSchema schemaAST schemaAST
  = {| addedEntities := []; removedEntities := []; modifiedEntities := ∅ |}.
Proof.
  intros Hnames Hfields. unfold compareSchema.
  assert (∀ l changes, (∀ d, d ∈ l → d ∈ schemaAST) →
            fold_left (visit_next schemaAST) l changes = changes) as Hnext.
  { induction l as [|d rest IH]; intros changes Hsub; simpl; [done|].
    rewrite IH by (intros g Hg; apply Hsub; by right).
    destruct d as [n fs|k]; simpl; [|done].
    assert (ObjectTypeDefinition n fs ∈ schemaAST) as Hin by (apply Hsub; left).
    rewrite (find_object_type_elem n fs) by done.
    rewrite !filter_unnamed_nil by done.
    unfold compute_modifiedFields.
    rewrite modified_fold_same by eauto. simpl.
    rewrite bool_decide_eq_false_2; [done|].
    rewrite map_size_empty. lia. }
  assert (∀ l changes, (∀ d, d ∈ l → d ∈ schemaAST) →
            fold_left (visit_current schemaAST) l changes = changes) as Hcur.
  { induction l as [|d rest IH]; intros changes Hsub; simpl; [done|].
    rewrite IH by (intros g Hg; apply Hsub; by right).
    destruct d as [n fs|k]; simpl; [|done].
    by rewrite (find_object_type_elem n fs) by (done || apply Hsub; left). }
  by rewrite Hnext, Hcur.
Qed.

Lemma compareSchema_same_document_witness :
  compareSchema schema_v2 schema_v2
  = {| addedEntities := []; removedEntities := []; modifiedEntities := ∅ |}.
Proof.
  apply (compareSchema_same_document schema_v2).
  - apply (bool_decide_unpack _). vm_compute. reflexivity.
  - intros n fs Hin. unfold schema_v2 in Hin.
    apply elem_of_cons in Hin as [?|Hin]; [done|].
    apply elem_of_cons in Hin as [[= -> ->]|Hin]; [|by apply elem_of_nil in Hin].
    apply (bool_decide_unpack _). vm_compute. reflexivity.
Defined.

(** A field whose type changes only in its non-null or list wrappers, the
    innermost named type staying the same, is never reported as modified. *)
Theorem compareSchema_ignores_wrappers
    (currentSchemaAST nextSchemaAST : list DefinitionNode) (typeName : string)
    (oldFields newFields : list FieldDefinitionNode)
    (oldField newField : FieldDefinitionNode) (ec : EntityChanges) :
  NoDup (object_type_names nextSchemaAST) →
  ObjectTypeDefinition typeName newFields ∈ nextSchemaAST →
  find_object_type typeName currentSchemaAST = Some oldFields →
  NoDup (map field_name newFields) →
  newField ∈ newFields →
  find_named (field_name newField) oldFields = Some oldField →
  unwrapTypeNode (field_type oldField) = unwrapTypeNode (field_type newField) →
  modifiedEntities (compareSchema currentSchemaAST nextSchemaAST) !! typeName = Some ec →
  modifiedFields ec !! field_name newField = None.
Proof.
  intros Hnames Hin Hold Hfields Hnew Hfound Hsame Hec.
  destruct (modifiedFields ec !! field_name newField) as [c|] eqn:Hc; [|done].
  exfalso.
  assert (is_Some (compute_modifiedFields oldFields newFields !! field_name newField)) as H.
  { apply (visit_next_fold_this currentSchemaAST nextSchemaAST
             {| addedEntities := []; removedEntities := []; modifiedEntities := ∅ |}
             typeName oldFields newFields); try done.
    exists ec. split; [|by rewrite Hc].
    unfold compareSchema in Hec. by rewrite visit_current_fold_modified in Hec. }
  unfold compute_modifiedFields in H.
  apply (modified_fold_this _ _ _ _ oldField) in H as [H|H]; try done.
  - apply H. unfold extractTypeDetails. by rewrite Hsame.
  - rewrite lookup_empty in H. by destruct H.
Qed.

Lemma compareSchema_ignores_wrappers_witness :
  ∃ ec, modifiedEntities (compareSchema schema_v1 schema_v2) !! "Account" = Some ec
        ∧ modifiedFields ec !! "tags" = None.
Proof.
  eexists. split; [vm_compute; reflexivity|].
  apply (compareSchema_ignores_wrappers schema_v1 schema_v2 "Account"
           [ mkField "id" (NonNullType (NamedType "ID"));
             mkField "balance" (NamedType "Int");
             mkField "tags" (ListType (NamedType "String")) ]
           [ mkField "id" (NonNullType (NamedType "ID"));
             mkField "balance" (NonNullType (NamedType "BigInt"));
             mkField "tags" (NonNullType (ListType (NamedType "String"))) ]
           (mkField "tags" (ListType (NamedType "String")))
           (mkField "tags" (NonNullType (ListType (NamedType "String"))))).
  - apply (bool_decide_unpack _). vm_compute. reflexivity.
  - unfold schema_v2. apply list_elem_of_further, list_elem_of_here.
  - reflexivity.
  - apply (bool_decide_unpack _). vm_compute. reflexivity.
  - do 2 apply list_elem_of_further. apply list_elem_of_here.
  - reflexivity.
  - reflexivity.
  - vm_compute. reflexivity.
Defined.

End SchemaEntities.

(** ** Cached entity model: windowed reads, counting and flushing *)

Module CachedModelQueries.
Import CachedModel.

(** [Array.prototype.slice(start, end)], negative indices counting from the
    end of the array. *)
Definition js_slice {A} (start finish : Z) (l : list A) : list A :=
  let len := Z.of_nat (length l) in
  let relative (i : Z) := if i <? 0 then Z.max (len + i) 0 else Z.min i len in
  take (Z.to_nat (relative finish - relative start)) (drop (Z.to_nat (relative start)) l).

(** [model.findAll({where: {[field]: value, id: {[Op.notIn]: ids}}, limit,
    offset})]: an array [value] selects the rows whose column is one of its
    elements. When [field] is ['id'] the second [id] key of the object
    literal replaces the first and only the exclusion is left. The server
    rejects a negative [LIMIT] or [OFFSET] ([None]). *)
Definition findAll (db : Table) (field : string) (value : Query) (ids : list string)
    (limit offset : Z) : option (list Entity) :=
  if (limit <? 0) || (offset <? 0) then None
  else
    let selected :=
      List.filter
        (fun row => (String.eqb field "id"
                     || matches_value (entity_field row field) (Some value))
                    && negb (bool_decide (id row ∈ ids))) db in
    Some (take (Z.to_nat limit) (drop (Z.to_nat offset) selected)).

(** [records.map(record => this.getCache.set(data.id, data))] *)
Definition cache_records (records : list Entity) (c : GetData.t) : GetData.t :=
  fold_left (fun c data => GetData.set getCacheOptions_max (id data) (Some data) c) records c.

(** The tail of [getByField]: the query, the update of [getCache] and the
    concatenation. *)
Definition query_and_join (db : Table) (field : string) (value : Query)
    (cachedData : list (option Entity)) (limit offset : Z) (s : t)
  : Outcome t (list (option Entity)) :=
  match findAll db field value (allCachedIds s) limit offset with
  | None => Thrown s (Error "LIMIT and OFFSET must not be negative")
  | Some records =>
      Returned (with_getCache (cache_records records (getCache s)) s)
               (cachedData ++ map Some records)
  end.

(** [getByField(field, value, {offset, limit})]. The last [else if] of the
    source tests [length < offset + limit], which holds whenever it is
    reached. The new limit is computed from the length of the slice already
    taken. *)
Definition getByField (db : Table) (field : string) (value : Query)
    (offset limit : Z) (s : t) : Outcome t (list (option Entity)) :=
  match getFromCache (Some field) (Some value) false s with
  | Thrown s' e => Thrown s' e
  | Hangs s' => Hangs s'
  | Returned s' cachedData =>
      let len := Z.of_nat (length cachedData) in
      if len <=? offset then
        query_and_join db field value [] limit offset s'
      else if offset + limit <=? len then
        Returned s' (js_slice offset (offset + limit) cachedData)
      else
        let cachedData := js_slice offset len cachedData in
        let limit := limit - (Z.of_nat (length cachedData) - offset) in
        query_and_join db field value cachedData limit offset s'
  end.





End CachedModelQueries.

Module CachedModelFlush.
Import CachedModel.

(** [sequelize.fn('int8range', lower, upper)]; no upper bound is [None]. *)
Record BlockRange : Type := int8range { lower : Z; upper : option Z }.

(** A record handed to [bulkCreate]: the payload and, in historical mode,
    the [__block_range] assigned to it. The assignment is made on the
    payload object itself, which is the object [set] also put in the read
    cache: an entity read from there after the flush carries the range.
    The model keeps payload and range apart and says nothing of what the
    read cache shows after a historical flush; the payloads of different
    versions are taken to be different objects. *)
Record CreationRecord : Type := mkCreationRecord {
  payload : Entity;
  block_range : option BlockRange
}.

(** The statements [flush] sends to the database. [CloseRange id h] is the
    update of [historicalMarkPreviousHeightRecordsBatch]: for the rows of
    [id] whose range contains [h - 1], the range becomes
    [int8range(lower(_block_range), h)]. *)
Inductive DbOperation : Type :=
| CloseRange (i : string) (blockHeight : Z)
| BulkCreate (records : list CreationRecord) (updateOnDuplicate : option (list string))
| Destroy (ids : list string).

(** The records of one [setCache] value. *)
Definition records_of (historical : bool) (v : SetValueModel.t)
  : option (list CreationRecord) :=
  if negb historical then
    match SetValueModel.getLatest v with
    | Some latest =>
        Some [ {| payload := SetValueModel.data latest; block_range := None |} ]
    | None => None
    end
  else
    Some (map (fun historicalValue =>
                 {| payload := SetValueModel.data historicalValue;
                    block_range :=
                      Some {| lower := SetValueModel.startHeight historicalValue;
                              upper := SetValueModel.endHeight historicalValue |} |})
              (SetValueModel.getValues v)).

(** [flatten(Object.values(this.setCache).map(...))]; [None] when reading
    [.data] of a missing latest version throws. *)
Fixpoint all_records (historical : bool) (models : list (string * SetValueModel.t))
  : option (list CreationRecord) :=
  match models with
  | [] => Some []
  | (_, v) :: rest =>
      match records_of historical v, all_records historical rest with
      | Some rs, Some more => Some (rs ++ more)
      | _, _ => None
      end
  end.

(** [closeSetRecords]: each id with the start height of its first version;
    [None] when a model has no first version to read. *)
Fixpoint closeSetRecords (models : list (string * SetValueModel.t))
  : option (list (string * Z)) :=
  match models with
  | [] => Some []
  | (i, value) :: rest =>
      match SetValueModel.getFirst value, closeSetRecords rest with
      | Some first, Some more => Some ((i, SetValueModel.startHeight first) :: more)
      | _, _ => None
      end
  end.

Definition closeRemoveRecords (removes : list (string * RemoveValue)) : list (string * Z) :=
  map (fun '(i, value) => (i, removedAtBlock value)) removes.

(** [Object.keys(record)] of a payload. *)
Definition payload_keys (e : Entity) : list string :=
  "id" :: (map_to_list (attrs e)).*1.

(** [flush(tx)]: the model left behind together with the statements sent.
    In historical mode a failure inside the close-previous batch rejects its
    promise only: [bulkCreate] has been called and the caches are cleared by
    the time the rejection is awaited. Otherwise an exception leaves the
    method before anything is sent or cleared. *)
Definition flush (s : t) : Outcome (t * list DbOperation) unit :=
  match all_records (historical s) (JsObject.entries (setCache s)) with
  | None => Thrown (s, []) TypeError
  | Some records =>
      if historical s then
        match closeSetRecords (JsObject.entries (setCache s)) with
        | Some closeSet =>
            let merged :=
              closeSet ++ closeRemoveRecords (JsObject.entries (removeCache s)) in
            Returned (clear s,
                      map (fun '(i, blockHeight) => CloseRange i blockHeight) merged
                      ++ [BulkCreate records None]) tt
        | None => Thrown (clear s, [BulkCreate records None]) TypeError
        end
      else
        match records with
        | [] => Thrown (s, []) TypeError
        | first :: _ =>
            Returned (clear s,
                      [ BulkCreate records (Some (payload_keys (payload first)));
                        Destroy (JsObject.keys (removeCache s)) ]) tt
        end
  end.

End CachedModelFlush.

Section CachedModelQueryFacts.
Import CachedModel CachedModelQueries CachedModelFlush.

Lemma js_slice_window {A} (offset limit : Z) (l : list A) :
  0 <= offset → 0 <= limit → offset + limit <= Z.of_nat (length l) →
  js_slice offset (offset + limit) l = take (Z.to_nat limit) (drop (Z.to_nat offset) l).
Proof.
  intros Ho Hl Hlen. unfold js_slice.
  destruct (Z.ltb_spec offset 0); [lia|].
  destruct (Z.ltb_spec (offset + limit) 0); [lia|].
  rewrite !Z.min_l by lia.
  replace (offset + limit - offset) with limit by lia. reflexivity.
Qed.

Lemma js_slice_tail_length {A} (offset : Z) (l : list A) :
  0 <= offset → offset <= Z.of_nat (length l) →
  Z.of_nat (length (js_slice offset (Z.of_nat (length l)) l)) = Z.of_nat (length l) - offset.
Proof.
  intros Ho Hlen. unfold js_slice.
  destruct (Z.ltb_spec offset 0); [lia|].
  destruct (Z.ltb_spec (Z.of_nat (length l)) 0); [lia|].
  rewrite length_take, length_drop. lia.
Qed.

Lemma findAll_length (db : Table) (field : string) (value : Query) (ids : list string)
    (limit offset : Z) (records : list Entity) :
  findAll db field value ids limit offset = Some records →
  0 <= limit ∧ Z.of_nat (length records) <= limit.
Proof.
  unfold findAll.
  destruct (Z.ltb_spec limit 0); simpl; [discriminate|].
  destruct (offset <? 0); [discriminate|].
  intros [= <-]. rewrite length_take. lia.
Qed.

(** *** The iteration over the read cache *)

Section Iteration.
Variables (unifiedIds : list string) (field : option string) (value : option Query).

Let visits (entry : string * option Entity) : Visit :=
  visit unifiedIds field value entry.

Let skipped (l : list (string * option Entity)) : Prop :=
  Forall (λ entry, visits entry = Skips) l.

Lemma find_is_key_notin (k : string) (l l' : list (string * option Entity)) :
  k ∉ l.*1 →
  List.find (GetData.is_key k) (l ++ l') = List.find (GetData.is_key k) l'.
Proof.
  induction l as [|[j w] l IH]; simpl; [done|].
  rewrite not_elem_of_cons. intros [Hne Hl].
  unfold GetData.is_key at 1. simpl.
  destruct (String.eqb_spec j k) as [->|_]; [done|]. by apply IH.
Qed.

Lemma without_notin (k : string) (l : list (string * option Entity)) :
  k ∉ l.*1 → GetData.without k l = l.
Proof.
  unfold GetData.without.
  induction l as [|[j w] l IH]; simpl; [done|].
  rewrite not_elem_of_cons. intros [Hne Hl].
  unfold GetData.is_key at 1. simpl.
  destruct (String.eqb_spec j k) as [->|_]; [done|]. simpl. f_equal. by apply IH.
Qed.

(** [get] moves the entry it reads to the front. *)
Lemma get_moves_to_front (passed rest : list (string * option Entity))
    (entry : string * option Entity) :
  NoDup (passed ++ entry :: rest).*1 →
  GetData.get entry.1 {| GetData.entries := passed ++ entry :: rest |}
  = (entry.2, {| GetData.entries := entry :: passed ++ rest |}).
Proof.
  destruct entry as [k v]. simpl.
  rewrite fmap_app, fmap_cons. simpl. intros Hnodup.
  apply NoDup_app in Hnodup as (_ & Hdisjoint & [Hrest _]%NoDup_cons).
  assert (k ∉ passed.*1) as Hpassed.
  { intros Hin. apply (Hdisjoint k Hin). by left. }
  unfold GetData.get, GetData.find_entry. simpl.
  rewrite find_is_key_notin by done. simpl.
  unfold GetData.is_key at 1. simpl. rewrite String.eqb_refl. simpl.
  do 2 f_equal. unfold GetData.without. rewrite List.filter_app. simpl.
  unfold GetData.is_key at 2. simpl. rewrite String.eqb_refl. simpl.
  fold (GetData.without k passed). fold (GetData.without k rest).
  by rewrite !without_notin.
Qed.

Lemma NoDup_moved_to_front (passed rest : list (string * option Entity))
    (entry : string * option Entity) :
  NoDup (passed ++ entry :: rest).*1 → NoDup (entry :: passed ++ rest).*1.
Proof.
  intros Hnodup. eapply NoDup_Permutation_proper; [|exact Hnodup].
  apply fmap_Permutation. by rewrite Permutation_middle.
Qed.

(** A run of entries the callback skips takes one callback each. *)
Lemma forEach_steps_skipped (pre passed rest : list (string * option Entity))
    (n : nat) (joined : list (option Entity)) (c : GetData.t) :
  GetData.entries c = passed ++ pre ++ rest →
  skipped pre →
  forEach_steps (length pre + n) unifiedIds field value (length passed) joined c
  = forEach_steps n unifiedIds field value (length passed + length pre) joined c.
Proof.
  revert passed. induction pre as [|entry pre IH]; intros passed Hentries Hskipped; simpl.
  - by rewrite Nat.add_0_r.
  - apply Forall_cons in Hskipped as [Hentry Hpre]. simpl in Hentries.
    rewrite Hentries, list_lookup_middle by done.
    unfold visits in Hentry. rewrite Hentry.
    specialize (IH (passed ++ [entry])).
    rewrite length_app in IH. simpl in IH.
    rewrite Nat.add_1_r in IH. rewrite IH; [|by rewrite <- app_assoc|done].
    f_equal. lia.
Qed.

Lemma forEach_steps_skipped_none (pre passed rest : list (string * option Entity))
    (joined : list (option Entity)) (c : GetData.t) :
  GetData.entries c = passed ++ pre ++ rest →
  skipped pre →
  (∀ m, forEach_steps m unifiedIds field value (length passed + length pre) joined c = None) →
  ∀ n, forEach_steps n unifiedIds field value (length passed) joined c = None.
Proof.
  revert passed. induction pre as [|entry pre IH];
    intros passed Hentries Hskipped Hnone n; simpl in *.
  - specialize (Hnone n). by rewrite Nat.add_0_r in Hnone.
  - apply Forall_cons in Hskipped as [Hentry Hpre].
    destruct n as [|n]; [done|]. simpl.
    rewrite Hentries. simpl. rewrite list_lookup_middle by done.
    unfold visits in Hentry. rewrite Hentry.
    specialize (IH (passed ++ [entry])).
    rewrite length_app in IH. simpl in IH. rewrite Nat.add_1_r in IH.
    apply IH; [by rewrite <- app_assoc|done|].
    intros m. specialize (Hnone m).
    by replace (S (length passed) + length pre)%nat
      with (length passed + S (length pre))%nat by lia.
Qed.

(** Two entries the callback reads, at the front: the iteration alternates
    between them. *)
Lemma forEach_steps_alternates (n : nat) (first second : string * option Entity)
    (rest : list (string * option Entity)) (joined : list (option Entity)) :
  NoDup (first :: second :: rest).*1 →
  visits first = Reads → visits second = Reads →
  forEach_steps n unifiedIds field value 1 joined
    {| GetData.entries := first :: second :: rest |} = None.
Proof.
  revert first second joined.
  induction n as [|n IH]; intros first second joined Hnodup Hfirst Hsecond; [done|].
  simpl. unfold visits in Hsecond. rewrite Hsecond.
  pose proof (get_moves_to_front [first] rest second Hnodup) as Hget.
  cbn [app] in Hget. rewrite Hget.
  apply IH; [|done|done].
  by apply (NoDup_moved_to_front [first] rest second).
Qed.

Lemma after_read_ends (l : list (string * option Entity)) :
  after_read unifiedIds field value l = Ends → skipped l.
Proof.
  induction l as [|entry l IH]; simpl; [by constructor|].
  destruct (visit unifiedIds field value entry) eqn:Hentry; try discriminate.
  intros Hl. constructor; [done|by apply IH].
Qed.

Lemma after_read_stops (l : list (string * option Entity)) :
  after_read unifiedIds field value l ≠ Ends →
  ∃ pre entry rest,
    l = pre ++ entry :: rest ∧ skipped pre
    ∧ ((visits entry = Throws ∧ after_read unifiedIds field value l = Fails)
       ∨ (visits entry = Reads ∧ after_read unifiedIds field value l = NeverEnds)).
Proof.
  induction l as [|entry l IH]; simpl; [done|].
  destruct (visit unifiedIds field value entry) eqn:Hentry.
  - intros Hl. destruct (IH Hl) as (pre & e & rest & -> & Hpre & Hcases).
    exists (entry :: pre), e, rest. split; [done|]. split; [by constructor|done].
  - intros _. exists [], entry, l. split; [done|]. split; [by constructor|].
    right. done.
  - intros _. exists [], entry, l. split; [done|]. split; [by constructor|].
    left. done.
Qed.

(** The pass over the read cache as [scan_getCache] computes it is the
    iteration taken one callback at a time: what the one returns or throws
    the other reaches after enough callbacks, and where the one does not
    end the other has no result after any number of callbacks. *)
Lemma scan_getCache_iterates (remaining passed : list (string * option Entity))
    (joined : list (option Entity)) :
  NoDup (passed ++ remaining).*1 →
  skipped passed →
  let c := {| GetData.entries := passed ++ remaining |} in
  match scan_getCache unifiedIds field value passed remaining joined c with
  | Hangs _ =>
      ∀ n, forEach_steps n unifiedIds field value (length passed) joined c = None
  | outcome =>
      ∃ n, forEach_steps n unifiedIds field value (length passed) joined c = Some outcome
  end.
Proof.
  revert passed. induction remaining as [|entry rest IH]; intros passed Hnodup Hpassed c.
  - simpl. exists 1%nat. simpl. subst c. simpl.
    by rewrite lookup_ge_None_2 by (rewrite app_nil_r; lia).
  - simpl. destruct (visit unifiedIds field value entry) eqn:Hentry.
    + specialize (IH (passed ++ [entry])).
      rewrite <- app_assoc in IH. simpl in IH.
      specialize (IH Hnodup). fold c in IH.
      assert (skipped (passed ++ [entry])) as Hskipped.
      { apply Forall_app. split; [done|]. by constructor. }
      specialize (IH Hskipped).
      rewrite length_app in IH. simpl in IH. rewrite Nat.add_1_r in IH.
      assert (∀ n, forEach_steps (S n) unifiedIds field value (length passed) joined c
                   = forEach_steps n unifiedIds field value (S (length passed)) joined c)
        as Hstep.
      { intros n. simpl. subst c. simpl. rewrite list_lookup_middle by done.
        by rewrite Hentry. }
      destruct (scan_getCache unifiedIds field value (passed ++ [entry]) rest joined c).
      * destruct IH as [n Hn]. exists (S n). by rewrite Hstep.
      * destruct IH as [n Hn]. exists (S n). by rewrite Hstep.
      * intros [|n]; [done|]. by rewrite Hstep.
    + assert (∀ n, forEach_steps (S n) unifiedIds field value (length passed) joined c
                   = forEach_steps n unifiedIds field value 1
                       (joined ++ [entry.2])
                       {| GetData.entries := entry :: passed ++ rest |})
        as Hstep.
      { intros n. simpl. subst c. simpl. rewrite list_lookup_middle by done.
        rewrite Hentry. by rewrite get_moves_to_front. }
      subst c. rewrite get_moves_to_front by done.
      pose proof (NoDup_moved_to_front passed rest entry Hnodup) as Hmoved.
      destruct (after_read unifiedIds field value (passed ++ rest)) eqn:Hafter.
      * apply after_read_ends in Hafter.
        exists (S (length (passed ++ rest) + 1)). rewrite Hstep.
        rewrite (forEach_steps_skipped (passed ++ rest) [entry] [] 1);
          [|by rewrite app_nil_r|done].
        simpl. by rewrite lookup_ge_None_2 by (simpl; lia).
      * destruct (after_read_stops (passed ++ rest)) as (pre & e & rest' & Hsplit & Hpre & Hcases);
          [by rewrite Hafter|].
        destruct Hcases as [[He _]|[_ Hne]]; [|congruence].
        exists (S (length pre + 1)). rewrite Hstep, Hsplit.
        rewrite (forEach_steps_skipped pre [entry] (e :: rest') 1); [|done|done].
        simpl. rewrite (list_lookup_middle pre rest' e (length pre)) by done.
        unfold visits in He. by rewrite He.
      * destruct (after_read_stops (passed ++ rest)) as (pre & e & rest' & Hsplit & Hpre & Hcases);
          [by rewrite Hafter|].
        destruct Hcases as [[_ Hne]|[He _]]; [congruence|].
        intros [|n]; [done|]. rewrite Hstep, Hsplit.
        rewrite Hsplit in Hmoved.
        apply (forEach_steps_skipped_none pre [entry] (e :: rest')); [done|done|].
        intros [|m]; [done|]. simpl.
        rewrite (list_lookup_middle pre rest' e (length pre)) by done.
        unfold visits in He. rewrite He.
        pose proof (get_moves_to_front (entry :: pre) rest' e Hmoved) as Hget.
        cbn [app] in Hget. rewrite Hget.
        apply forEach_steps_alternates; [|done|done].
        by apply (NoDup_moved_to_front (entry :: pre) rest' e).
    + exists 1%nat. simpl. subst c. simpl. rewrite list_lookup_middle by done.
      by rewrite Hentry.
Qed.

(** The same for the pass as [getFromCache] starts it, at the most
    recently used entry. *)
Lemma scan_getCache_from_start (joined : list (option Entity)) (c : GetData.t) :
  NoDup (GetData.entries c).*1 →
  match scan_getCache unifiedIds field value [] (GetData.entries c) joined c with
  | Hangs _ => ∀ n, forEach_steps n unifiedIds field value 0 joined c = None
  | outcome => ∃ n, forEach_steps n unifiedIds field value 0 joined c = Some outcome
  end.
Proof.
  destruct c as [l]. simpl. intros Hnodup.
  apply (scan_getCache_iterates l [] joined Hnodup). constructor.
Qed.

End Iteration.

(** The read cache holds each id once: the methods keep it so. *)
Lemma without_keys (k j : string) (l : list (string * option Entity)) :
  j ∈ (GetData.without k l).*1 ↔ j ∈ l.*1 ∧ j ≠ k.
Proof.
  unfold GetData.without. rewrite !list_elem_of_fmap. split.
  - intros ([j' w] & -> & Hin). apply list_elem_of_In, filter_In in Hin as [Hin Hk].
    apply negb_true_iff in Hk. unfold GetData.is_key in Hk. simpl in *.
    apply String.eqb_neq in Hk. split; [|done].
    exists (j', w). split; [done|]. by apply list_elem_of_In.
  - intros [([j' w] & -> & Hin) Hne]. exists (j', w). split; [done|].
    apply list_elem_of_In, filter_In. split; [by apply list_elem_of_In|].
    apply negb_true_iff. unfold GetData.is_key. simpl in *. by apply String.eqb_neq.
Qed.

Lemma without_NoDup (k : string) (l : list (string * option Entity)) :
  NoDup l.*1 → NoDup (GetData.without k l).*1.
Proof.
  unfold GetData.without. induction l as [|[j w] l IH]; simpl; [done|].
  rewrite NoDup_cons. intros [Hj Hl].
  destruct (negb (GetData.is_key k (j, w))); [|by apply IH].
  simpl. apply NoDup_cons. split; [|by apply IH].
  intros Hin. apply Hj. by apply (without_keys k j l).
Qed.

Lemma GetData_set_NoDup (max : nat) (k : string) (v : option Entity) (c : GetData.t) :
  NoDup (GetData.entries c).*1 → NoDup (GetData.entries (GetData.set max k v c)).*1.
Proof.
  intros Hc. unfold GetData.set. simpl.
  assert (NoDup ((k, v) :: GetData.without k (GetData.entries c)).*1) as Hall.
  { simpl. apply NoDup_cons. split; [|by apply without_NoDup].
    rewrite without_keys. by intros [_ ?]. }
  apply (sublist_NoDup _ _ Hall), fmap_sublist, sublist_take.
Qed.

Lemma GetData_get_NoDup (k : string) (c : GetData.t) :
  NoDup (GetData.entries c).*1 → NoDup (GetData.entries (GetData.get k c).2).*1.
Proof.
  intros Hc. unfold GetData.get. destruct (GetData.find_entry k c); [|done].
  simpl. apply NoDup_cons. split; [|by apply without_NoDup].
  rewrite without_keys. by intros [_ ?].
Qed.

Lemma GetData_delete_NoDup (k : string) (c : GetData.t) :
  NoDup (GetData.entries c).*1 → NoDup (GetData.entries (GetData.delete k c)).*1.
Proof. apply without_NoDup. Qed.

Definition owned (i owner : string) : Entity := mkEntity i {[ "owner" := VStr owner ]}.

(** Two entities read from the table into the read cache, then a scan
    that matches both: the iteration does not end. With one match it
    does. *)
Definition two_read : t :=
  final_state (get [owned "b" "x"] "b" (final_state (get [owned "a" "x"] "a" (create true)))).

Example getFromCache_two_reads_hang :
  match getFromCache (Some "owner") (Some (QOne (VStr "x"))) false two_read with
  | Hangs _ => True
  | _ => False
  end
  ∧ forEach_steps 1000 [] (Some "owner") (Some (QOne (VStr "x"))) 0 []
      (getCache two_read) = None
  ∧ getFromCache (Some "id") (Some (QOne (VStr "a"))) false two_read
    = Returned (final_state (get [] "a" two_read)) [Some (owned "a" "x")].
Proof. vm_compute. repeat split; reflexivity. Qed.

(** When the scan of the caches returns a full window of matches,
    [getByField] answers with that window, [limit] entities long, and the
    table is not read. *)
Theorem getByField_full_window_from_cache
    (db : Table) (field : string) (value : Query) (offset limit : Z)
    (s s' : t) (cachedData : list (option Entity)) :
  getFromCache (Some field) (Some value) false s = Returned s' cachedData →
  0 <= offset → 0 < limit → offset + limit <= Z.of_nat (length cachedData) →
  getByField db field value offset limit s
  = Returned s' (take (Z.to_nat limit) (drop (Z.to_nat offset) cachedData))
  ∧ length (take (Z.to_nat limit) (drop (Z.to_nat offset) cachedData)) = Z.to_nat limit.
Proof.
  intros Hcache Ho Hl Hlen. unfold getByField. rewrite Hcache.
  destruct (Z.leb_spec (Z.of_nat (length cachedData)) offset); [lia|].
  destruct (Z.leb_spec (offset + limit) (Z.of_nat (length cachedData))); [|lia].
  rewrite js_slice_window by lia. split; [reflexivity|].
  rewrite length_take, length_drop. lia.
Qed.

(** The matches come in the order of [Object.entries(setCache)]: the ids
    created by [bulkCreate([b, a])] are listed [b] before [a]. *)
Definition two_cached : t :=
  final_state (set_each [owned "b" "x"; owned "a" "x"] 5 (create true)).

Lemma getByField_full_window_from_cache_witness :
  getByField [] "owner" (QOne (VStr "x")) 0 1 two_cached
  = Returned two_cached [Some (owned "b" "x")]
  ∧ length [Some (owned "b" "x")] = 1%nat.
Proof.
  apply (getByField_full_window_from_cache [] "owner" (QOne (VStr "x")) 0 1
           two_cached two_cached [Some (owned "b" "x"); Some (owned "a" "x")]).
  - vm_compute. reflexivity.
  - lia.
  - lia.
  - simpl. lia.
Defined.

(** [getByField] returns at most [limit + offset] entities. The bound is
    not [limit]: when the caches hold part of the window, the rows fetched
    are cut with the same [offset] and a limit computed from the slice
    already taken. *)
Theorem getByField_length_bound
    (db : Table) (field : string) (value : Query) (offset limit : Z)
    (s s' : t) (result : list (option Entity)) :
  0 <= offset → 0 <= limit →
  getByField db field value offset limit s = Returned s' result →
  Z.of_nat (length result) <= limit + offset.
Proof.
  intros Ho Hl. unfold getByField.
  destruct (getFromCache _ _ _ _) as [s1 cachedData| |]; [|discriminate|discriminate].
  destruct (Z.leb_spec (Z.of_nat (length cachedData)) offset).
  - unfold query_and_join. destruct (findAll _ _ _ _ _ _) as [records|] eqn:E; [|discriminate].
    intros [= _ <-]. apply findAll_length in E. simpl. rewrite length_map. lia.
  - destruct (Z.leb_spec (offset + limit) (Z.of_nat (length cachedData))).
    + intros [= _ <-]. rewrite js_slice_window by lia.
      rewrite length_take. lia.
    + unfold query_and_join. destruct (findAll _ _ _ _ _ _) as [records|] eqn:E; [|discriminate].
      intros [= _ <-]. apply findAll_length in E.
      rewrite length_app, length_map.
      pose proof (js_slice_tail_length offset cachedData). lia.
Qed.

Definition four_rows : Table :=
  [owned "c" "x"; owned "d" "x"; owned "f" "x"; owned "g" "x"].

Lemma getByField_length_bound_witness :
  ∃ s' result,
    getByField four_rows "owner" (QOne (VStr "x")) 1 2 two_cached = Returned s' result
    ∧ Z.of_nat (length result) <= 2 + 1.
Proof.
  destruct (getByField four_rows "owner" (QOne (VStr "x")) 1 2 two_cached)
    as [s' result| |] eqn:E; [|vm_compute in E; discriminate|vm_compute in E; discriminate].
  exists s', result. split; [reflexivity|].
  apply (getByField_length_bound four_rows "owner" (QOne (VStr "x")) 1 2 two_cached s' result);
    [lia | lia | exact E].
Defined.

(** The bound is reached: with [offset = 1] and [limit = 2], two cached
    matches and four matching rows, three entities come back. *)
Example getByField_exceeds_limit :
  match getByField four_rows "owner" (QOne (VStr "x")) 1 2 two_cached with
  | Returned _ result => map (fmap id) result = [Some "a"; Some "d"; Some "f"]
  | _ => False
  end.
Proof. vm_compute. reflexivity. Qed.



End CachedModelQueryFacts.

Section CachedModelFlushFacts.
Import CachedModel CachedModelFlush.

(** In non-historical mode a flush with nothing in [setCache] throws while
    it builds the [bulkCreate] options (there is no first record to take
    the column names from): nothing is sent to the database, the pending
    removals are not deleted, and the caches are not cleared. *)
Theorem flush_without_sets_throws (s : t) :
  historical s = false →
  setCache s = ∅ →
  flush s = Thrown (s, []) TypeError.
Proof.
  intros Hh Hempty. unfold flush. rewrite Hempty, JsObject_entries_empty, Hh. reflexivity.
Qed.

Lemma flush_without_sets_throws_witness :
  flush (remove "alice" 7 (create false))
  = Thrown (remove "alice" 7 (create false), []) TypeError.
Proof.
  apply (flush_without_sets_throws (remove "alice" 7 (create false))); reflexivity.
Defined.

Lemma closeSetRecords_elem (models : list (string * SetValueModel.t))
    (closeSet : list (string * Z)) (i : string) (h : Z) :
  closeSetRecords models = Some closeSet →
  (i, h) ∈ closeSet
  ↔ ∃ m first, (i, m) ∈ models ∧ SetValueModel.getFirst m = Some first
               ∧ SetValueModel.startHeight first = h.
Proof.
  revert closeSet. induction models as [|[j m] rest IH]; intros closeSet; simpl.
  - intros [= <-]. split; [by intros ?%elem_of_nil|].
    intros (? & ? & ?%elem_of_nil & _). done.
  - destruct (SetValueModel.getFirst m) as [first|] eqn:Hfirst; [|discriminate].
    destruct (closeSetRecords rest) as [more|]; [|discriminate].
    intros [= <-]. rewrite elem_of_cons, (IH more eq_refl). split.
    + intros [[= -> ->]|(m' & f' & Hin & Hf & Hh)].
      * exists m, first. split; [left|done].
      * exists m', f'. split; [by right|done].
    + intros (m' & f' & Hin & Hf & Hh).
      apply elem_of_cons in Hin as [[= -> ->]|Hin].
      * left. f_equal. congruence.
      * right. eauto.
Qed.

(** In historical mode a flush that goes through closes, for every id in
    [setCache], the stored range at the start height of the FIRST pending
    version of that id, and for every id in [removeCache] at its
    [removedAtBlock]; it sends no other range update. *)
Theorem flush_historical_closes (s s' : t) (ops : list DbOperation) (i : string) (h : Z) :
  historical s = true →
  flush s = Returned (s', ops) tt →
  CloseRange i h ∈ ops
  ↔ (∃ m first, setCache s !! i = Some m ∧ SetValueModel.getFirst m = Some first
                ∧ SetValueModel.startHeight first = h)
    ∨ removeCache s !! i = Some {| removedAtBlock := h |}.
Proof.
  intros Hh. unfold flush. rewrite Hh.
  destruct (all_records _ _) as [records|]; [|discriminate].
  destruct (closeSetRecords _) as [closeSet|] eqn:Hclose; [|discriminate].
  intros [= _ <-].
  rewrite elem_of_app, list_elem_of_singleton.
  assert (∀ l : list (string * Z),
            CloseRange i h ∈ map (λ '(i, blockHeight), CloseRange i blockHeight) l
            ↔ (i, h) ∈ l) as Hmap.
  { intros l. rewrite list_elem_of_fmap. split.
    - intros ([j k] & [= -> ->] & Hin). done.
    - intros Hin. exists (i, h). done. }
  rewrite Hmap, elem_of_app, (closeSetRecords_elem _ _ _ _ Hclose).
  unfold closeRemoveRecords. rewrite list_elem_of_fmap. split.
  - intros [[(m & first & Hin & Hf & Hs)|([j [r]] & [= -> ->] & Hin)]|?]; [| |done].
    + left. exists m, first. by rewrite <- JsObject_elem_of_entries.
    + right. by apply JsObject_elem_of_entries in Hin.
  - intros [(m & first & Hm & Hf & Hs)|Hr]; left.
    + left. exists m, first. by rewrite JsObject_elem_of_entries.
    + right. exists (i, {| removedAtBlock := h |}). split; [done|].
      by apply JsObject_elem_of_entries.
Qed.

Definition set_at_5_and_8 : t :=
  final_state (set_each [alice; alice2] 8
                 (final_state (set "alice" alice 5 (create true)))).

Lemma flush_historical_closes_witness :
  ∃ s' ops, flush set_at_5_and_8 = Returned (s', ops) tt
            ∧ (CloseRange "alice" 5 ∈ ops
               ↔ (∃ m first, setCache set_at_5_and_8 !! "alice" = Some m
                             ∧ SetValueModel.getFirst m = Some first
                             ∧ SetValueModel.startHeight first = 5)
                 ∨ removeCache set_at_5_and_8 !! "alice" = Some {| removedAtBlock := 5 |}).
Proof.
  destruct (flush set_at_5_and_8) as [[s' ops] []| |] eqn:E;
    [|vm_compute in E; discriminate|vm_compute in E; discriminate].
  exists s', ops. split; [reflexivity|].
  apply (flush_historical_closes set_at_5_and_8 s' ops "alice" 5); [reflexivity|exact E].
Defined.

(** Once an id has been removed, a later [set] of the same id does not
    bring it back for [get]: [set] leaves [removeCache] alone and [get]
    looks there first, so it answers NULL until the caches are cleared. *)
Theorem remove_then_set_still_null (db : Table) (i : string) (data : Entity)
    (h h' : Z) (s s' : t) :
  set i data h' (remove i h s) = Returned s' tt →
  get db i s' = Returned s' None.
Proof.
  intros Hset.
  destruct (set_cases i data h' (remove i h s))
    as [(model' & models & _ & _ & _ & Hret)|(s1 & e1 & Hthrown & _)]; [|congruence].
  rewrite Hret in Hset. injection Hset as <-. unfold get. simpl.
  pose proof (read_removeCache_remove i h s) as Hread.
  by destruct (JsObject.read i (removeCache (remove i h s))).
Qed.

Definition removed_then_set : t :=
  final_state (set "alice" alice2 9 (remove "alice" 7 after_first_set)).

Lemma remove_then_set_still_null_witness :
  get [] "alice" removed_then_set = Returned removed_then_set None.
Proof.
  apply (remove_then_set_still_null [] "alice" alice2 7 9 after_first_set removed_then_set).
  vm_compute. reflexivity.
Defined.

Lemma uniq_elem (x : string) (l : list string) : x ∈ uniq l ↔ x ∈ l.
Proof.
  induction l as [|y rest IH]; simpl; [done|].
  rewrite !elem_of_cons, <- IH, !list_elem_of_In, filter_In.
  destruct (String.eqb_spec x y) as [->|Hne]; [tauto|].
  split; [tauto|]. intros [?|?]; [done|]. right. split; [done|].
  by rewrite negb_true_iff.
Qed.

Lemma uniq_NoDup (l : list string) : NoDup (uniq l).
Proof.
  induction l as [|y rest IH]; simpl; [constructor|].
  apply NoDup_cons. split.
  - rewrite list_elem_of_In, filter_In, String.eqb_refl. by intros [_ ?].
  - apply NoDup_ListNoDup, List.NoDup_filter. by apply NoDup_ListNoDup.
Qed.

(** [allCachedIds] lists, without repetition, exactly the ids held by the
    read cache, by [setCache] or by [removeCache]. *)
Theorem allCachedIds_exact (s : t) (i : string) :
  NoDup (allCachedIds s)
  ∧ (i ∈ allCachedIds s
     ↔ i ∈ GetData.keys (getCache s)
       ∨ is_Some (setCache s !! i)
       ∨ is_Some (removeCache s !! i)).
Proof.
  unfold allCachedIds. split; [apply uniq_NoDup|].
  by rewrite uniq_elem, !elem_of_app, !JsObject_elem_of_keys.
Qed.

Lemma set_each_returned (data : list Entity) (h : Z) (s s' : t) :
  set_each data h s = Returned s' tt →
  flushableRecordCounter s' = flushableRecordCounter s + Z.of_nat (length data)
  ∧ (∀ i, is_Some (setCache s !! i) → is_Some (setCache s' !! i))
  ∧ (∀ e, e ∈ data → is_Some (setCache s' !! id e)).
Proof.
  revert s. induction data as [|entity rest IH]; intros s; simpl.
  - intros [= <-]. split; [lia|]. split; [done|]. by intros e ?%elem_of_nil.
  - destruct (set_cases (id entity) entity h s)
      as [(model' & models & _ & Hold & _ & Hset)|(s1 & e1 & Hset & _)];
      rewrite Hset; [|discriminate].
    match goal with |- set_each rest h ?s1' = _ → _ => set (s1 := s1') end.
    intros Hrest. destruct (IH _ Hrest) as (Hc & Hkeep & Hall).
    assert (flushableRecordCounter s1 = flushableRecordCounter s + 1
            ∧ ∀ i, is_Some (setCache s !! i) ∨ i = id entity → is_Some (setCache s1 !! i))
      as [Hc1 Hk1].
    { subst s1. simpl. split; [done|]. intros i [Hi| ->].
      - destruct (decide (id entity = i)) as [->|Hne].
        + rewrite JsObject_lookup_assign_eq. eauto.
        + rewrite JsObject_lookup_assign_ne by done. by apply Hold.
      - rewrite JsObject_lookup_assign_eq. eauto. }
    split; [lia|]. split.
    + intros i Hi. apply Hkeep, Hk1. by left.
    + intros e [->|He]%elem_of_cons; [|by apply Hall].
      apply Hkeep, Hk1. by right.
Qed.

(** A [bulkCreate] that goes through counts one flushable record per
    entity of the list, repeated ids included, and leaves every entity's id
    in [setCache]. *)
Theorem bulkCreate_counts_each (data : list Entity) (blockHeight : Z) (s s' : t) :
  bulkCreate data blockHeight s = Returned s' tt →
  flushableRecordCounter s' = flushableRecordCounter s + Z.of_nat (length data)
  ∧ (∀ e, e ∈ data → is_Some (setCache s' !! id e)).
Proof.
  intros H. apply set_each_returned in H as (Hc & _ & Hall). done.
Qed.

Lemma bulkCreate_counts_each_witness :
  flushableRecordCounter (final_state (bulkCreate [alice; bob; alice2] 5 (create true)))
  = flushableRecordCounter (create true) + Z.of_nat (length [alice; bob; alice2]).
Proof.
  apply (bulkCreate_counts_each [alice; bob; alice2] 5 (create true)
           (final_state (bulkCreate [alice; bob; alice2] 5 (create true)))).
  vm_compute. reflexivity.
Defined.

End CachedModelFlushFacts.

(** ** Cached metadata model: reads *)

Module CacheMetadataReads.
Import CacheMetadataModel.

#[global] Instance MetadataKey_eq_dec : EqDecision MetadataKey.
Proof. solve_decision. Defined.

(** Truthiness of a stored value: [0], the empty string and [false] are
    falsy. *)
Definition truthy_field (v : FieldValue) : bool :=
  match v with
  | VStr s => negb (String.eqb s "")
  | VNum n => negb (n =? 0)
  | VBool b => b
  end.

Definition truthy_value (k : MetadataKey) : value_of k -> bool :=
  match k with
  | IncKey _ => fun n => negb (n =? 0)
  | OtherKey _ => truthy_field
  end.

Definition truthy_read (k : MetadataKey) (o : option (value_of k)) : bool :=
  match o with
  | Some v => truthy_value k v
  | None => false
  end.

Definition with_getCache (c : MetadataKeys) (s : t) : t :=
  {| setCache := setCache s; getCache := c;
     flushableRecordCounter := flushableRecordCounter s |}.

(** [find(key)]; [db] holds the rows [findByPk] reads. *)
Definition find (db : MetadataKeys) (k : MetadataKey) (s : t) : option (value_of k) * t :=
  if negb (truthy_read k (read k (getCache s))) then
    match read k db with
    | Some value =>
        if truthy_value k value
        then (Some value, with_getCache (write k value (getCache s)) s)
        else (read k (getCache s), s)
    | None => (read k (getCache s), s)
    end
  else (read k (getCache s), s).

(** [{...a, ...b}] *)
Definition spread (a b : MetadataKeys) : MetadataKeys :=
  {| processedBlockCount_ :=
       match processedBlockCount_ b with
       | Some v => Some v
       | None => processedBlockCount_ a
       end;
     schemaMigrationCount_ :=
       match schemaMigrationCount_ b with
       | Some v => Some v
       | None => schemaMigrationCount_ a
       end;
     others := others b ∪ others a |}.

(** The rows [findAll({where: {key: keys}})] returns, reduced to an object. *)
Definition rows_for (keys : list MetadataKey) (db : MetadataKeys) : MetadataKeys :=
  {| processedBlockCount_ :=
       if bool_decide (IncKey processedBlockCount ∈ keys)
       then processedBlockCount_ db else None;
     schemaMigrationCount_ :=
       if bool_decide (IncKey schemaMigrationCount ∈ keys)
       then schemaMigrationCount_ db else None;
     others := filter (λ kv, OtherKey kv.1 ∈ keys) (others db) |}.

(** [findMany(keys)] *)
Definition findMany (db : MetadataKeys) (keys : list MetadataKey) (s : t)
  : MetadataKeys * t :=
  let keyValue := rows_for keys db in
  let result := spread keyValue (setCache s) in
  (result, with_getCache (spread (getCache s) result) s).

End CacheMetadataReads.

Section CacheMetadataReadFacts.
Import CacheMetadataModel CacheMetadataReads.

Lemma read_write_eq (k : MetadataKey) (v : value_of k) (m : MetadataKeys) :
  read k (write k v m) = Some v.
Proof.
  destruct k as [[]|n]; simpl; [reflexivity..|]. apply lookup_insert_eq.
Qed.

(** [find] fetches a truthy stored value once: the first call reads the
    table and caches the value, and from then on the answer comes from the
    cache whatever the table holds. *)
Theorem find_caches_truthy (db : MetadataKeys) (k : MetadataKey) (v : value_of k) (s : t) :
  truthy_read k (read k (getCache s)) = false →
  read k db = Some v →
  truthy_value k v = true →
  (find db k s).1 = Some v
  ∧ ∀ db', find db' k (find db k s).2 = (Some v, (find db k s).2).
Proof.
  intros Hmiss Hrow Hv. unfold find at 1 3 4. rewrite Hmiss, Hrow, Hv. simpl.
  split; [reflexivity|]. intros db'. unfold find. simpl.
  rewrite read_write_eq. simpl. rewrite Hv. reflexivity.
Qed.

Lemma find_caches_truthy_witness :
  (find table_at_10 (IncKey processedBlockCount) create).1 = Some 10.
Proof.
  apply (find_caches_truthy table_at_10 (IncKey processedBlockCount) 10 create);
    reflexivity.
Defined.

(** A stored value that is falsy (a count of 0, an empty string, [false])
    is never cached and [find] answers [undefined] for it. *)
Theorem find_falsy_row_undefined (db : MetadataKeys) (k : MetadataKey) (v : value_of k) (s : t) :
  read k (getCache s) = None →
  read k db = Some v →
  truthy_value k v = false →
  find db k s = (None, s).
Proof.
  intros Hmiss Hrow Hv. unfold find. rewrite Hmiss, Hrow, Hv. reflexivity.
Qed.

Lemma find_falsy_row_undefined_witness :
  find table_at_10 (IncKey schemaMigrationCount) create = (None, create).
Proof.
  apply (find_falsy_row_undefined table_at_10 (IncKey schemaMigrationCount) 0 create);
    reflexivity.
Defined.

(** A truthy value written with [set] is what [find] returns next, without
    the table being read. *)
Theorem set_then_find (db : MetadataKeys) (k : MetadataKey) (v : value_of k) (s : t) :
  truthy_value k v = true →
  find db k (set k v s) = (Some v, set k v s).
Proof.
  intros Hv. unfold find, set. simpl. rewrite read_write_eq. simpl. by rewrite Hv.
Qed.

Lemma set_then_find_witness :
  find no_keys (OtherKey "chain") (set (OtherKey "chain") (VStr "kusama") create)
  = (Some (VStr "kusama"), set (OtherKey "chain") (VStr "kusama") create).
Proof.
  apply (set_then_find no_keys (OtherKey "chain") (VStr "kusama") create). reflexivity.
Defined.

(** With a falsy value the round trip fails: a [set] of 0 is overridden by
    the truthy value of the row at the next [find]. *)
Example set_zero_then_find_reads_row :
  (find table_at_10 (IncKey processedBlockCount)
        (set (IncKey processedBlockCount) 0 create)).1 = Some 10.
Proof. reflexivity. Qed.

(** [set] counts a key once: setting a key that is already pending leaves
    [flushableRecordCounter] as it is. *)
Theorem set_counts_first_write_only (k : MetadataKey) (v v' : value_of k) (s : t) :
  flushableRecordCounter (set k v' (set k v s)) = flushableRecordCounter (set k v s)
  ∧ (read k (setCache s) = None →
     flushableRecordCounter (set k v s) = flushableRecordCounter s + 1).
Proof.
  split.
  - unfold set at 1. cbn [flushableRecordCounter].
    replace (read k (setCache (set k v s))) with (Some v); [reflexivity|].
    unfold set. simpl. by rewrite read_write_eq.
  - intros Hnone. unfold set. simpl. by rewrite Hnone.
Qed.


Lemma others_flush_increment (pending db : MetadataKeys) (k : IncrementKey) :
  others (flush_increment pending db k) = others db.
Proof.
  unfold flush_increment, incrementJsonbCount.
  destruct (counter k pending); [|done]. destruct (_ =? _); [done|].
  destruct (counter k db); [|done]. by destruct k.
Qed.

Lemma fold_insert_lookup (ops : list (string * FieldValue)) (rows : gmap string FieldValue)
    (n : string) (v : FieldValue) :
  NoDup ops.*1 → (n, v) ∈ ops →
  fold_left (λ rows op, <[op.1 := op.2]> rows) ops rows !! n = Some v.
Proof.
  revert rows. induction ops as [|[m w] rest IH]; intros rows Hnd Hin.
  - by apply elem_of_nil in Hin.
  - simpl in *. apply NoDup_cons in Hnd as [Hfresh Hnd].
    apply elem_of_cons in Hin as [[= -> ->]|Hin]; [|by apply IH].
    clear IH. revert rows Hfresh.
    induction rest as [|[m' w'] rest IH]; intros rows Hfresh; simpl.
    + apply lookup_insert_eq.
    + simpl in *. apply NoDup_cons in Hnd as [_ Hnd].
      apply not_elem_of_cons in Hfresh as [Hne Hfresh].
      rewrite insert_insert_ne by done. by apply IH.
Qed.

(** A value written with [set] under any other key is the value of its row
    after the flush. *)
Theorem set_other_key_flush_stores (n : string) (v : FieldValue) (s : t) (db : MetadataKeys) :
  is_increment_name n = false →
  others (flush db (set (OtherKey n) v s)).1 !! n = Some v.
Proof.
  intros Hn. unfold flush, incrementKeys. simpl.
  rewrite !others_flush_increment. simpl.
  apply fold_insert_lookup.
  - apply NoDup_fmap_fst.
    + intros m x y Hx Hy.
      apply list_elem_of_In, filter_In in Hx as [Hx _].
      apply list_elem_of_In, filter_In in Hy as [Hy _].
      apply list_elem_of_In, elem_of_map_to_list in Hx.
      apply list_elem_of_In, elem_of_map_to_list in Hy. congruence.
    + apply NoDup_ListNoDup, List.NoDup_filter, NoDup_ListNoDup, NoDup_map_to_list.
  - apply list_elem_of_In, filter_In. split.
    + apply list_elem_of_In, elem_of_map_to_list, lookup_insert_eq.
    + simpl. by rewrite Hn.
Qed.

Lemma set_other_key_flush_stores_witness :
  others (flush table_at_10 (set (OtherKey "chain") (VStr "kusama") create)).1 !! "chain"
  = Some (VStr "kusama").
Proof.
  apply (set_other_key_flush_stores "chain" (VStr "kusama") create table_at_10).
  reflexivity.
Defined.

(** A pending increment makes the model flushable although it is not
    counted in [flushableRecordCounter] and is not visible to [find]. *)
Theorem setIncrement_flushable_uncounted (k : IncrementKey) (amount : Z) (s : t) :
  isFlushable (setIncrement k amount s) = true
  ∧ flushableRecordCounter (setIncrement k amount s) = flushableRecordCounter s
  ∧ ∀ db key, (find db key (setIncrement k amount s)).1 = (find db key s).1.
Proof.
  split; [|split].
  - unfold isFlushable, setIncrement, set_keys. simpl.
    destruct k; simpl; [done|]. by destruct (processedBlockCount_ (setCache s)).
  - reflexivity.
  - intros db key. unfold find, setIncrement. simpl.
    destruct (negb _); [|done].
    destruct (read key db); [|done]. by destruct (truthy_value key _).
Qed.

(** For every key, [findMany] answers the pending value when there is one,
    whether or not the key was asked for; otherwise the row of the table
    when the key was asked for; otherwise nothing. The read cache then
    holds that answer. *)
Theorem findMany_pending_first (db : MetadataKeys) (keys : list MetadataKey) (s : t)
    (k : MetadataKey) :
  read k (findMany db keys s).1
  = match read k (setCache s) with
    | Some v => Some v
    | None => if bool_decide (k ∈ keys) then read k db else None
    end
  ∧ (is_Some (read k (findMany db keys s).1) →
     read k (getCache (findMany db keys s).2) = read k (findMany db keys s).1).
Proof.
  assert (read k (spread (rows_for keys db) (setCache s))
          = match read k (setCache s) with
            | Some v => Some v
            | None => if bool_decide (k ∈ keys) then read k db else None
            end) as Hres.
  { destruct k as [[]|n]; simpl; [reflexivity..|].
    rewrite lookup_union. destruct (others (setCache s) !! n) as [v|]; simpl.
    - by destruct (filter _ _ !! n).
    - assert (∀ o : option FieldValue, None ∪ o = o) as -> by (by intros []).
      case_bool_decide as Hin.
      + destruct (others db !! n) as [w|] eqn:Hw.
        * by apply map_lookup_filter_Some.
        * apply map_lookup_filter_None. left. done.
      + apply map_lookup_filter_None. right. intros w _. done. }
  unfold findMany. cbn [fst snd]. split; [exact Hres|].
  intros [v Hv]. rewrite Hv.
  destruct k as [[]|n]; simpl in *.
  - by rewrite Hv.
  - by rewrite Hv.
  - rewrite lookup_union, Hv. by destruct (others (getCache s) !! n).
Qed.

End CacheMetadataReadFacts.

(** ** Contract scaffolding: the functions offered for selection *)

Module Scaffold.

(** A [FunctionFragment] of the ABI interface, as far as it is read. *)
Record FunctionFragment : Type := mkFunctionFragment {
  fragment_name : string;
  stateMutability : string
}.

(** The body of the [for (const key in obj)] loop. *)
Definition keep_unless_view (filteredObject : gmap string FunctionFragment)
    (entry : string * FunctionFragment) : gmap string FunctionFragment :=
  if negb (String.eqb (stateMutability entry.2) "view")
  then <[entry.1 := entry.2]> filteredObject
  else filteredObject.

Definition filterObjectsByStateMutability (obj : gmap string FunctionFragment)
  : gmap string FunctionFragment :=
  fold_left keep_unless_view (map_to_list obj) ∅.

(** [getAvailableFunctions(abiInterface)], on [abiInterface.functions]. *)
Definition getAvailableFunctions (functions : gmap string FunctionFragment)
  : gmap string FunctionFragment :=
  filterObjectsByStateMutability functions.

End Scaffold.

Section ScaffoldFacts.
Import Scaffold.

Lemma keep_unless_view_fold (entries : list (string * FunctionFragment))
    (acc : gmap string FunctionFragment) (key : string) (f : FunctionFragment) :
  NoDup entries.*1 →
  (∀ k, k ∈ entries.*1 → acc !! k = None) →
  fold_left keep_unless_view entries acc !! key = Some f
  ↔ ((key, f) ∈ entries ∧ stateMutability f ≠ "view") ∨ acc !! key = Some f.
Proof.
  revert acc. induction entries as [|[k g] rest IH]; intros acc Hnd Hacc; simpl.
  - split; [by right|]. intros [[?%elem_of_nil _]|?]; done.
  - simpl in Hnd. apply NoDup_cons in Hnd as [Hfresh Hnd].
    assert (acc !! k = None) as Hk by (apply Hacc; left).
    unfold keep_unless_view at 2. simpl.
    destruct (String.eqb_spec (stateMutability g) "view") as [Hview|Hview]; simpl.
    + rewrite IH; [|done|intros k' Hk'; apply Hacc; by right].
      rewrite elem_of_cons. split.
      * intros [[Hin Hf]|H]; [left; split; [by right|done] | by right].
      * intros [[[[= -> ->]|Hin] Hf]|H]; [done | by left | by right].
    + rewrite IH; [|done|].
      2:{ intros k' Hk'. rewrite lookup_insert_ne; [apply Hacc; by right|].
          intros ->. done. }
      rewrite elem_of_cons. split.
      * intros [[Hin Hf]|H]; [left; split; [by right|done]|].
        destruct (decide (k = key)) as [->|Hne].
        -- rewrite lookup_insert_eq in H. injection H as ->.
           left. split; [by left|done].
        -- rewrite lookup_insert_ne in H by done. by right.
      * intros [[[[= -> ->]|Hin] Hf]|H].
        -- right. apply lookup_insert_eq.
        -- left. done.
        -- right. rewrite lookup_insert_ne; [done|]. intros ->. congruence.
Qed.

(** [filterObjectsByStateMutability] keeps exactly the entries whose
    [stateMutability] is not ['view'], unchanged and under the same key;
    [pure] functions, for one, stay. Filtering twice changes nothing. *)
Theorem filterObjectsByStateMutability_exact
    (obj : gmap string FunctionFragment) (key : string) (f : FunctionFragment) :
  (filterObjectsByStateMutability obj !! key = Some f
   ↔ obj !! key = Some f ∧ stateMutability f ≠ "view")
  ∧ filterObjectsByStateMutability (filterObjectsByStateMutability obj)
    = filterObjectsByStateMutability obj.
Proof.
  assert (∀ o k g, filterObjectsByStateMutability o !! k = Some g
                   ↔ o !! k = Some g ∧ stateMutability g ≠ "view") as Hchar.
  { intros o k g. unfold filterObjectsByStateMutability.
    rewrite keep_unless_view_fold;
      [|apply NoDup_fst_map_to_list|intros; apply lookup_empty].
    rewrite elem_of_map_to_list, lookup_empty.
    split; [intros [?|?]; done | by left]. }
  split; [apply Hchar|].
  apply map_eq. intros k. apply option_eq. intros g.
  rewrite !Hchar. tauto.
Qed.

Example pure_functions_stay :
  getAvailableFunctions
    {[ "balanceOf(address)" := mkFunctionFragment "balanceOf" "view";
       "hash(bytes)" := mkFunctionFragment "hash" "pure";
       "transfer(address,uint256)" := mkFunctionFragment "transfer" "nonpayable" ]}
  = {[ "hash(bytes)" := mkFunctionFragment "hash" "pure";
       "transfer(address,uint256)" := mkFunctionFragment "transfer" "nonpayable" ]}.
Proof. vm_compute. reflexivity. Qed.

End ScaffoldFacts.

(** ** Serial block dispatcher: runs *)

Module DispatcherRuns.
Import BlockDispatcher.

(** The batches [fetchBlocksBatches] was called with, in order. *)
Definition fetch_requests (es : list Effect) : list (list Z) :=
  omap (fun e => match e with CallFetchBlocksBatches bn => Some bn | _ => None end) es.

(** The heights of the batch being fetched, if any. *)
Definition inflight (l : FetchLoop) : list Z :=
  match l with
  | AwaitingFetch blockNums _ => blockNums
  | _ => []
  end.

(** The heights inside the dispatcher, oldest first: the tasks not yet
    started, the batch being fetched, the heights still queued. *)
Definition pipeline (s : t) : list Z :=
  AutoQueue.tasks (processQueue s) ++ inflight (loop s) ++ Queue.items (queue s).

(** What happens in a run without flush, shutdown or failure: upstream
    enqueues heights, the fetch in flight resolves with the blocks that were
    asked for, the delay elapses, the task runner runs its next task and
    the handler succeeds. *)
Inductive Cooperative : Type :=
| Enqueue (heights : list Z)
| Fetched
| Delayed
| TaskRun.

Definition cooperative_event (s : t) (c : Cooperative) : Event :=
  match c with
  | Enqueue heights => EnqueueBlocks heights None
  | Fetched => FetchResolved (inflight (loop s))
  | Delayed => DelayElapsed
  | TaskRun => RunTask true
  end.

Definition cooperative_step (s : t) (c : Cooperative) : t :=
  step s (cooperative_event s c).

Definition cooperative_run (cs : list Cooperative) (s : t) : t :=
  fold_left cooperative_step cs s.

(** The heights [enqueueBlocks] was given, in order. *)
Fixpoint requested (cs : list Cooperative) : list Z :=
  match cs with
  | [] => []
  | Enqueue heights :: rest => heights ++ requested rest
  | _ :: rest => requested rest
  end.

(** The heights the queue takes in at one step: an [enqueueBlocks] that
    exceeds the free space throws and admits nothing. *)
Definition taken_in (s : t) (c : Cooperative) : list Z :=
  match c with
  | Enqueue heights =>
      match Queue.putMany heights (queue s) with
      | Some _ => heights
      | None => []
      end
  | _ => []
  end.

(** The heights admitted in the course of a run. *)
Fixpoint admitted (cs : list Cooperative) (s : t) : list Z :=
  match cs with
  | [] => []
  | c :: rest => taken_in s c ++ admitted rest (cooperative_step s c)
  end.

(** [ascending lo l]: [l] is strictly increasing and lies above [lo]. *)
Fixpoint ascending (lo : Z) (l : list Z) : Prop :=
  match l with
  | [] => True
  | x :: rest => lo < x ∧ ascending x rest
  end.

(** The last element of [lo :: l]. *)
Fixpoint last_from (lo : Z) (l : list Z) : Z :=
  match l with
  | [] => lo
  | x :: rest => last_from x rest
  end.

End DispatcherRuns.

Section DispatcherRunFacts.
Import BlockDispatcher DispatcherRuns.

Lemma indexed_snoc (es : list Effect) (e : Effect) :
  indexed (es ++ [e])
  = indexed es ++ match e with CallIndexBlock h => [h] | _ => [] end.
Proof. unfold indexed. rewrite omap_app. by destruct e. Qed.

Lemma fetch_requests_snoc (es : list Effect) (e : Effect) :
  fetch_requests (es ++ [e])
  = fetch_requests es ++ match e with CallFetchBlocksBatches bn => [bn] | _ => [] end.
Proof. unfold fetch_requests. rewrite omap_app. by destruct e. Qed.

(** A dispatcher that has been shut down: the flag is set and the task
    runner holds nothing. *)
Definition stopped (s : t) : Prop :=
  isShutdown s = true ∧ AutoQueue.tasks (processQueue s) = [].

Lemma step_stopped (s : t) (ev : Event) :
  stopped s →
  stopped (step s ev)
  ∧ indexed (effects (step s ev)) = indexed (effects s)
  ∧ fetch_requests (effects (step s ev)) = fetch_requests (effects s).
Proof.
  intros [Hs Ht]. unfold step. destruct (exited s); [done|].
  destruct ev as [heights h| height | | blocks | | | ok].
  - unfold enqueueBlocks. destruct (truthy h && is_nil heights); [done|].
    destruct (Queue.putMany _ _) as [q|]; simpl.
    + unfold fetchBlocksFromQueue. simpl. rewrite Hs, orb_true_r. simpl.
      by rewrite indexed_snoc, fetch_requests_snoc, !app_nil_r.
    + by rewrite indexed_snoc, fetch_requests_snoc, !app_nil_r.
  - done.
  - done.
  - unfold fetch_resolved. destruct (loop s); [done..|].
    destruct (queue_was_flushed _ _ _).
    + unfold loop_head. simpl. rewrite Hs. simpl.
      by rewrite indexed_snoc, fetch_requests_snoc, !app_nil_r.
    + by rewrite Hs.
  - unfold fetch_rejected. destruct (loop s); [done..|].
    unfold fail_loop. simpl. rewrite Hs. simpl.
    by rewrite indexed_snoc, fetch_requests_snoc, !app_nil_r.
  - unfold delay_elapsed. destruct (loop s); [done| |done].
    unfold loop_head. by rewrite Hs.
  - unfold run_task. by rewrite Ht.
Qed.

(** After [onApplicationShutdown] no task is started and no batch is
    requested, whatever happens next: [indexBlock] and [fetchBlocksBatches]
    are not called again. *)
Theorem nothing_starts_after_shutdown (evs : list Event) (s : t) :
  indexed (effects (run evs (onApplicationShutdown s))) = indexed (effects s)
  ∧ fetch_requests (effects (run evs (onApplicationShutdown s)))
    = fetch_requests (effects s).
Proof.
  assert (∀ s0, stopped s0 →
            indexed (effects (run evs s0)) = indexed (effects s0)
            ∧ fetch_requests (effects (run evs s0)) = fetch_requests (effects s0)) as H.
  { induction evs as [|ev evs IH]; intros s0 Hs0; [done|].
    destruct (step_stopped s0 ev Hs0) as (Hst & Hi & Hf).
    simpl. destruct (IH _ Hst) as [-> ->]. done. }
  apply (H (onApplicationShutdown s)). by split.
Qed.

(** Whether an effect is a fetch request of between 1 and [b] heights. *)
Definition batch_within (b : nat) (e : Effect) : Prop :=
  match e with
  | CallFetchBlocksBatches bn => (0 < length bn ≤ b)%nat
  | _ => True
  end.

Lemma loop_head_batches (b : nat) (s : t) :
  batchSize s = b → Forall (batch_within b) (effects s) →
  batchSize (loop_head s) = b ∧ Forall (batch_within b) (effects (loop_head s)).
Proof.
  intros Hb Hes. unfold loop_head. destruct (isShutdown s); [done|].
  unfold Queue.takeMany.
  destruct (take _ _) as [|x bn] eqn:Htake; simpl.
  - by destruct (negb _).
  - split; [done|]. rewrite <- app_assoc. apply Forall_app. split; [done|].
    apply Forall_cons. split; [exact I|].
    apply Forall_cons. split; [|constructor].
    apply (f_equal length) in Htake. rewrite length_take in Htake.
    simpl in *. lia.
Qed.

Lemma step_batches (b : nat) (s : t) (ev : Event) :
  batchSize s = b → Forall (batch_within b) (effects s) →
  batchSize (step s ev) = b ∧ Forall (batch_within b) (effects (step s ev)).
Proof.
  intros Hb Hes. unfold step. destruct (exited s); [done|].
  assert (∀ e, batch_within b e → Forall (batch_within b) (effects s ++ [e])) as Hsnoc.
  { intros e He. apply Forall_app. split; [done|]. by constructor. }
  destruct ev as [heights h| height | | blocks | | | ok].
  - unfold enqueueBlocks. destruct (truthy h && is_nil heights); [done|].
    destruct (Queue.putMany _ _) as [q|]; simpl; [|by split; [|apply Hsnoc]].
    unfold fetchBlocksFromQueue. simpl.
    destruct (fetching s || isShutdown s); simpl; [by split; [|apply Hsnoc]|].
    apply loop_head_batches; simpl; [done|by apply Hsnoc].
  - done.
  - done.
  - unfold fetch_resolved. destruct (loop s); [done..|].
    destruct (queue_was_flushed _ _ _).
    { apply loop_head_batches; simpl; [done|by apply Hsnoc]. }
    destruct (isShutdown s) eqn:Hs; [done|].
    destruct (AutoQueue.putMany _ _).
    + apply loop_head_batches; simpl; [done|by apply Hsnoc].
    + unfold fail_loop. simpl. rewrite Hs. simpl. split; [done|].
      rewrite <- app_assoc. apply Forall_app. split; [done|].
      apply Forall_cons. split; [exact I|]. apply Forall_cons. split; [exact I|constructor].
  - unfold fetch_rejected. destruct (loop s); [done..|].
    unfold fail_loop. simpl. destruct (isShutdown s); simpl; split; try done.
    + by apply Hsnoc.
    + rewrite <- app_assoc. apply Forall_app. split; [done|].
      apply Forall_cons. split; [exact I|]. apply Forall_cons. split; [exact I|constructor].
  - unfold delay_elapsed. destruct (loop s); [done| |done].
    by apply loop_head_batches.
  - unfold run_task. destruct (AutoQueue.tasks _); [done|]. simpl.
    destruct (_ <=? _); simpl.
    + destruct (isShutdown s); simpl; split; try done. by apply Hsnoc.
    + destruct ok; simpl; [by split; [|apply Hsnoc]|].
      destruct (isShutdown s); simpl; split; try done; [by apply Hsnoc|].
      rewrite <- app_assoc. apply Forall_app. split; [done|].
      apply Forall_cons. split; [exact I|]. apply Forall_cons. split; [exact I|constructor].
Qed.

(** Every batch handed to [fetchBlocksBatches] holds at least one height
    and at most [batchSize], in every run of the dispatcher. *)
Theorem fetch_batches_within_batchSize (evs : list Event) (b : nat) (processedHeight : Z)
    (blockNums : list Z) :
  blockNums ∈ fetch_requests (effects (run evs (create b processedHeight))) →
  (0 < length blockNums ≤ b)%nat.
Proof.
  assert (∀ s, batchSize s = b → Forall (batch_within b) (effects s) →
               Forall (batch_within b) (effects (run evs s))) as H.
  { induction evs as [|ev evs IH]; intros s Hb Hes; [done|].
    destruct (step_batches b s ev Hb Hes). simpl. by apply IH. }
  specialize (H (create b processedHeight) eq_refl ltac:(constructor)).
  unfold fetch_requests. intros Hin. apply list_elem_of_omap in Hin as (e & He & Heq).
  rewrite Forall_forall in H. specialize (H e He).
  destruct e; try discriminate. injection Heq as <-. exact H.
Qed.

Lemma fetch_batches_within_batchSize_witness :
  (0 < length [10; 11; 12; 13] ≤ 4)%nat.
Proof.
  apply (fetch_batches_within_batchSize
           [EnqueueBlocks [10; 11; 12; 13; 14; 15; 16; 17] None] 4 9 [10; 11; 12; 13]).
  vm_compute. apply list_elem_of_here.
Defined.

Lemma last_from_app (lo : Z) (l1 l2 : list Z) :
  last_from lo (l1 ++ l2) = last_from (last_from lo l1) l2.
Proof. revert lo. induction l1 as [|x l1 IH]; intros lo; simpl; [done|apply IH]. Qed.

Lemma ascending_app (lo : Z) (l1 l2 : list Z) :
  ascending lo (l1 ++ l2) ↔ ascending lo l1 ∧ ascending (last_from lo l1) l2.
Proof.
  revert lo. induction l1 as [|x l1 IH]; intros lo; simpl; [tauto|].
  rewrite IH. tauto.
Qed.

Lemma ascending_weaken (lo lo' : Z) (l : list Z) :
  lo' <= lo → ascending lo l → ascending lo' l.
Proof. destruct l; simpl; [done|]. intros ? [? ?]. split; [lia|done]. Qed.

Lemma last_from_mono (a b : Z) (l : list Z) : a <= b → last_from a l <= last_from b l.
Proof. destruct l; simpl; [done|lia]. Qed.

Lemma ascending_le_last (lo : Z) (l : list Z) : ascending lo l → lo <= last_from lo l.
Proof.
  revert lo. induction l as [|x l IH]; intros lo; simpl; [lia|].
  intros [Hlt Hl]. specialize (IH _ Hl). lia.
Qed.

Lemma last_last_from (lo w : Z) (l : list Z) : last l = Some w → last_from lo l = w.
Proof.
  revert lo. induction l as [|x l IH]; intros lo Hl; [done|].
  destruct l as [|y l].
  - simpl in *. by injection Hl as ->.
  - change (last_from x (y :: l) = w). apply IH. exact Hl.
Qed.

Lemma fold_min_le (x : Z) (l : list Z) : fold_left Z.min l x <= x.
Proof.
  revert x. induction l as [|y l IH]; intros x; simpl; [lia|].
  specialize (IH (Z.min x y)). lia.
Qed.

(** The invariant of a cooperative run, with [hi] a bound on every height
    seen so far. *)
Definition loop_in_order (hi : Z) (s : t) : Prop :=
  match loop s with
  | NotRunning => fetching s = false
  | AwaitingDelay => fetching s = true
  | AwaitingFetch blockNums bufferedHeight =>
      fetching s = true
      ∧ blockNums ≠ []
      ∧ js_gt bufferedHeight (latestBufferedHeight s) = false
      ∧ (∀ p, bufferedHeight = Some p → p <= hi)
      ∧ (length (AutoQueue.tasks (processQueue s)) + length blockNums
         ≤ AutoQueue.capacity (processQueue s))%nat
  end.

Definition in_order (hi : Z) (s : t) : Prop :=
  exited s = false
  ∧ isShutdown s = false
  ∧ AutoQueue.aborted (processQueue s) = false
  ∧ ascending (latestProcessedHeight s) (pipeline s)
  ∧ last_from (latestProcessedHeight s) (pipeline s) <= hi
  ∧ (∀ w, latestBufferedHeight s = Some w → w <= hi)
  ∧ loop_in_order hi s.

Lemma js_gt_same (w : option Z) : js_gt w w = false.
Proof. destruct w; simpl; [apply Z.ltb_irrefl|done]. Qed.

(** One pass of the loop keeps the heights and their order. *)
Lemma loop_head_in_order (hi : Z) (s : t) :
  exited s = false → isShutdown s = false →
  AutoQueue.aborted (processQueue s) = false →
  ascending (latestProcessedHeight s)
    (AutoQueue.tasks (processQueue s) ++ Queue.items (queue s)) →
  last_from (latestProcessedHeight s)
    (AutoQueue.tasks (processQueue s) ++ Queue.items (queue s)) <= hi →
  (∀ w, latestBufferedHeight s = Some w → w <= hi) →
  in_order hi (loop_head s)
  ∧ pipeline (loop_head s) = AutoQueue.tasks (processQueue s) ++ Queue.items (queue s)
  ∧ indexed (effects (loop_head s)) = indexed (effects s).
Proof.
  intros Hex Hs Hab Hasc Hlast Hw. unfold loop_head. rewrite Hs.
  unfold Queue.takeMany.
  set (n := (batchSize s `min` AutoQueue.freeSpace (processQueue s))%nat).
  pose proof (take_drop n (Queue.items (queue s))) as Hsplit.
  destruct (take n (Queue.items (queue s))) as [|x bn] eqn:Htake.
  - simpl in Hsplit. destruct (negb _); unfold in_order, loop_in_order, pipeline; simpl;
      rewrite Hsplit; repeat split; done.
  - unfold in_order, loop_in_order, pipeline. simpl. simpl in Hsplit.
    rewrite !indexed_snoc, !app_nil_r, Hsplit.
    repeat split; try done.
    + apply js_gt_same.
    + apply (f_equal length) in Htake. rewrite length_take in Htake.
      unfold AutoQueue.freeSpace, AutoQueue.size in n. simpl in *. lia.
Qed.

Lemma in_order_mono (hi hi' : Z) (s : t) : hi <= hi' → in_order hi s → in_order hi' s.
Proof.
  intros Hle (Hex & Hs & Hab & Hasc & Hlast & Hw & Hloop).
  repeat split; try done; [lia | intros w Hwm; specialize (Hw w Hwm); lia |].
  unfold loop_in_order in *. destruct (loop s); try done.
  destruct Hloop as (? & ? & ? & Hp & ?). repeat split; try done.
  intros p Hpre. specialize (Hp p Hpre). lia.
Qed.

Lemma enqueue_in_order (hi : Z) (s : t) (heights : list Z) :
  in_order hi s → ascending hi heights →
  in_order (last_from hi heights) (cooperative_step s (Enqueue heights))
  ∧ indexed (effects (cooperative_step s (Enqueue heights)))
    ++ pipeline (cooperative_step s (Enqueue heights))
    = indexed (effects s) ++ pipeline s ++ taken_in s (Enqueue heights).
Proof.
  intros Hinv Hhs.
  pose proof (ascending_le_last _ _ Hhs) as Hhi.
  pose proof Hinv as (Hex & Hs & Hab & Hasc & Hlast & Hw & Hloop).
  unfold cooperative_step, step, cooperative_event, taken_in. rewrite Hex.
  unfold enqueueBlocks. simpl.
  destruct (Queue.putMany heights (queue s)) as [q|] eqn:Hput; simpl.
  2:{ rewrite indexed_snoc, !app_nil_r. split; [|done].
      apply (in_order_mono hi); [done|]. exact Hinv. }
  assert (q = {| Queue.capacity := Queue.capacity (queue s);
                 Queue.items := Queue.items (queue s) ++ heights |}) as ->.
  { revert Hput. unfold Queue.putMany. destruct (bool_decide _); [|done]. by intros [= <-]. }
  assert (ascending (latestProcessedHeight s) (pipeline s ++ heights)
          ∧ last_from (latestProcessedHeight s) (pipeline s ++ heights)
            <= last_from hi heights) as [Hasc' Hlast'].
  { rewrite ascending_app, last_from_app. split; [split; [done|]|].
    - by apply (ascending_weaken hi).
    - by apply last_from_mono. }
  assert (∀ w, last heights = Some w → w <= last_from hi heights) as Hw'.
  { intros w El. by rewrite (last_last_from hi w heights El). }
  unfold fetchBlocksFromQueue. simpl. rewrite Hs, orb_false_r.
  destruct (fetching s) eqn:Hf.
  - unfold in_order, loop_in_order, pipeline in *. simpl.
    rewrite indexed_snoc, !app_nil_r.
    rewrite <- !app_assoc in Hasc', Hlast'. rewrite <- !app_assoc.
    split; [|done]. repeat split; try done.
    destruct (loop s) as [| |bn pre]; try done.
    destruct Hloop as (_ & Hne & Hgt & Hp & Hcap). repeat split; try done.
    + destruct pre as [p|]; [|done]. destruct (last heights) as [w|] eqn:El; [|done].
      simpl. apply Z.ltb_ge. specialize (Hp p eq_refl).
      rewrite <- (last_last_from hi w heights El). lia.
    + intros p Hpre. specialize (Hp p Hpre). lia.
  - assert (loop s = NotRunning) as Hl.
    { unfold loop_in_order in Hloop. destruct (loop s); [done|congruence|].
      destruct Hloop. congruence. }
    unfold pipeline in Hasc', Hlast' |- *. rewrite Hl in Hasc', Hlast' |- *.
    simpl in Hasc', Hlast'. rewrite <- !app_assoc in Hasc', Hlast'.
    match goal with |- context [loop_head ?st] =>
      destruct (loop_head_in_order (last_from hi heights) st) as (Hin & Hpipe & Hidx);
        try done end.
    split; [exact Hin|].
    unfold pipeline in Hpipe. rewrite Hidx. simpl. rewrite indexed_snoc, app_nil_r.
    rewrite Hpipe. simpl. by rewrite <- !app_assoc.
Qed.

Lemma fetched_in_order (hi : Z) (s : t) :
  in_order hi s →
  in_order hi (cooperative_step s Fetched)
  ∧ indexed (effects (cooperative_step s Fetched)) ++ pipeline (cooperative_step s Fetched)
    = indexed (effects s) ++ pipeline s.
Proof.
  intros Hinv. pose proof Hinv as (Hex & Hs & Hab & Hasc & Hlast & Hw & Hloop).
  unfold cooperative_step, step, cooperative_event. rewrite Hex.
  unfold fetch_resolved.
  destruct (loop s) as [| |bn pre] eqn:Hl; [done..|].
  unfold loop_in_order in Hloop. rewrite Hl in Hloop.
  destruct Hloop as (Hf & Hne & Hgt & Hp & Hcap).
  unfold pipeline in Hasc, Hlast |- *. rewrite Hl in Hasc, Hlast |- *. simpl in *.
  assert (queue_was_flushed pre bn s = false) as ->.
  { unfold queue_was_flushed. rewrite Hgt. simpl. unfold lt_min, Queue.peek.
    destruct (Queue.items (queue s)) as [|q0 items]; [done|]. simpl.
    destruct bn as [|x r]; [done|].
    apply Z.ltb_ge. pose proof (fold_min_le x r).
    apply ascending_app in Hasc as [_ Hasc]. simpl in Hasc.
    destruct Hasc as [_ Hasc]. apply ascending_app in Hasc as [Hr Hq].
    simpl in Hq. destruct Hq as [Hq _].
    pose proof (ascending_le_last _ _ Hr). lia. }
  rewrite Hs.
  assert (AutoQueue.putMany bn (processQueue s)
          = Some {| AutoQueue.capacity := AutoQueue.capacity (processQueue s);
                    AutoQueue.tasks := AutoQueue.tasks (processQueue s) ++ bn;
                    AutoQueue.aborted := false |}) as ->.
  { unfold AutoQueue.putMany. rewrite Hab.
    rewrite bool_decide_eq_true_2; [done|].
    unfold AutoQueue.freeSpace, AutoQueue.size. lia. }
  match goal with |- context [loop_head ?st] =>
    destruct (loop_head_in_order hi st) as (Hin & Hpipe & Hidx); simpl; try done end.
  - by rewrite <- app_assoc.
  - by rewrite <- app_assoc.
  - split; [exact Hin|]. unfold pipeline in Hpipe. rewrite Hidx, Hpipe. simpl.
    by rewrite indexed_snoc, app_nil_r, <- !app_assoc.
Qed.

Lemma delayed_in_order (hi : Z) (s : t) :
  in_order hi s →
  in_order hi (cooperative_step s Delayed)
  ∧ indexed (effects (cooperative_step s Delayed)) ++ pipeline (cooperative_step s Delayed)
    = indexed (effects s) ++ pipeline s.
Proof.
  intros Hinv. pose proof Hinv as (Hex & Hs & Hab & Hasc & Hlast & Hw & Hloop).
  unfold cooperative_step, step, cooperative_event. rewrite Hex.
  unfold delay_elapsed.
  destruct (loop s) as [| |bn pre] eqn:Hl; [done| |done].
  unfold pipeline in Hasc, Hlast |- *. rewrite Hl in Hasc, Hlast |- *. simpl in *.
  destruct (loop_head_in_order hi s) as (Hin & Hpipe & Hidx); try done.
  split; [exact Hin|]. unfold pipeline in Hpipe. by rewrite Hidx, Hpipe.
Qed.

Lemma task_in_order (hi : Z) (s : t) :
  in_order hi s →
  in_order hi (cooperative_step s TaskRun)
  ∧ indexed (effects (cooperative_step s TaskRun)) ++ pipeline (cooperative_step s TaskRun)
    = indexed (effects s) ++ pipeline s.
Proof.
  intros Hinv. pose proof Hinv as (Hex & Hs & Hab & Hasc & Hlast & Hw & Hloop).
  unfold cooperative_step, step, cooperative_event. rewrite Hex.
  unfold run_task.
  destruct (AutoQueue.tasks (processQueue s)) as [|h rest] eqn:Ht; [done|].
  unfold pipeline in Hasc, Hlast. rewrite Ht in Hasc, Hlast. simpl in Hasc, Hlast.
  destruct Hasc as [Hlt Hasc]. simpl.
  destruct (Z.leb_spec h (latestProcessedHeight s)); [lia|].
  unfold in_order, loop_in_order, pipeline. simpl.
  rewrite indexed_snoc, <- app_assoc. split; [|by rewrite Ht].
  repeat split; try done.
  unfold loop_in_order in Hloop.
  destruct (loop s); try done.
  destruct Hloop as (? & ? & ? & ? & Hcap). rewrite Ht in Hcap. simpl in Hcap.
  repeat split; try done. lia.
Qed.

(** In a run without flush, shutdown or failure, in which upstream enqueues
    strictly increasing heights above the last processed one, no admitted
    height is lost, repeated or overtaken: the heights [indexBlock] has
    been called with, followed by those still inside the dispatcher, are
    the admitted heights in the order of admission. *)
Theorem heights_indexed_in_admission_order (cs : list Cooperative) (b : nat)
    (processedHeight : Z) :
  ascending processedHeight (requested cs) →
  indexed (effects (cooperative_run cs (create b processedHeight)))
  ++ pipeline (cooperative_run cs (create b processedHeight))
  = admitted cs (create b processedHeight).
Proof.
  assert (∀ s hi, in_order hi s → ascending hi (requested cs) →
            indexed (effects (cooperative_run cs s)) ++ pipeline (cooperative_run cs s)
            = indexed (effects s) ++ pipeline s ++ admitted cs s) as H.
  { induction cs as [|c cs IH]; intros s hi Hinv Hreq; simpl.
    - by rewrite app_nil_r.
    - destruct c as [heights| | |]; simpl in Hreq.
      + apply ascending_app in Hreq as [Hhs Hreq].
        destruct (enqueue_in_order hi s heights Hinv Hhs) as [Hinv' Heq].
        rewrite (IH _ _ Hinv' Hreq), app_assoc, Heq. by rewrite <- !app_assoc.
      + destruct (fetched_in_order hi s Hinv) as [Hinv' Heq].
        rewrite (IH _ _ Hinv' Hreq), app_assoc, Heq. by rewrite <- !app_assoc.
      + destruct (delayed_in_order hi s Hinv) as [Hinv' Heq].
        rewrite (IH _ _ Hinv' Hreq), app_assoc, Heq. by rewrite <- !app_assoc.
      + destruct (task_in_order hi s Hinv) as [Hinv' Heq].
        rewrite (IH _ _ Hinv' Hreq), app_assoc, Heq. by rewrite <- !app_assoc. }
  intros Hreq. rewrite (H (create b processedHeight) processedHeight); [done| |done].
  unfold in_order, loop_in_order, pipeline. simpl. repeat split; try done.
Qed.

Definition two_batches : list Cooperative :=
  [ Enqueue [10; 11; 12; 13; 14; 15]; Fetched; TaskRun; Enqueue [16; 17];
    TaskRun; Fetched; TaskRun; TaskRun; TaskRun ].

Lemma heights_indexed_in_admission_order_witness :
  indexed (effects (cooperative_run two_batches (create 4 9)))
  ++ pipeline (cooperative_run two_batches (create 4 9))
  = admitted two_batches (create 4 9).
Proof.
  apply (heights_indexed_in_admission_order two_batches 4 9).
  simpl. lia.
Defined.

Example two_batches_progress :
  indexed (effects (cooperative_run two_batches (create 4 9))) = [10; 11; 12; 13; 14]
  ∧ pipeline (cooperative_run two_batches (create 4 9)) = [15; 16; 17].
Proof. vm_compute. split; reflexivity. Qed.

End DispatcherRunFacts.
